(** * Keybinding resolution of the IDE shell

    A shallow embedding of [packages/core/src/common/keybinding.ts]:
    the keybinding context registry, the scoped keybinding registry and the
    dispatch of keyboard events, together with the Key Code grammar the
    registry parses its keystroke strings with. *)

From Stdlib Require Import Ascii String ZArith.
From stdpp Require Import base strings list gmap.

Open Scope string_scope.
Open Scope list_scope.
Open Scope nat_scope.

(** ** Outcome of a call that may throw *)

(** A JavaScript [Error] carries its message. *)
Record Error := mkError { message : string }.

#[global] Instance Error_eq_dec : EqDecision Error.
Proof. solve_decision. Defined.

(** How a statement list completes: normally, or by a [throw]. *)
Inductive Completion :=
| Normal
| Thrown (e : Error).

(** ** Data model of keybinding.ts *)

(** [enum KeybindingScope { DEFAULT, USER, WORKSPACE, END }]: a numeric enum,
    the code does arithmetic on it ([++scope], [scope--], [END - 1]). *)
Definition KeybindingScope := nat.
Definition DEFAULT : KeybindingScope := 0.
Definition USER : KeybindingScope := 1.
Definition WORKSPACE : KeybindingScope := 2.
Definition END : KeybindingScope := 3.

(** [interface Keybinding]: [context?] is optional. *)
Record Keybinding := mkKeybinding {
  command : string;
  keybinding : string;
  context : option string
}.

#[global] Instance Keybinding_eq_dec : EqDecision Keybinding.
Proof. solve_decision. Defined.

(** [interface KeybindingContext]. *)
Record KeybindingContext := mkContext {
  id : string;
  isEnabled : Keybinding → bool
}.

Module KeybindingContexts.
Definition NOOP_CONTEXT : KeybindingContext :=
  {| id := "noop.keybinding.context"; isEnabled := λ _, true |}.
Definition DEFAULT_CONTEXT : KeybindingContext :=
  {| id := "default.keybinding.context"; isEnabled := λ _, false |}.
End KeybindingContexts.

(** ** KeybindingContextRegistry *)

(** The names of the properties every plain object inherits from
    [Object.prototype]. *)
Definition Object_prototype_names : list string :=
  ["constructor"; "hasOwnProperty"; "isPrototypeOf"; "propertyIsEnumerable";
   "toLocaleString"; "toString"; "valueOf"; "__proto__";
   "__defineGetter__"; "__defineSetter__"; "__lookupGetter__"; "__lookupSetter__"].

(** What reading a property of the [contexts] object yields when it is not
    [undefined]: a context stored there, or the member of [Object.prototype]
    of that name (a function, or the prototype itself for [__proto__]), which
    is truthy and is no context. *)
Inductive Member :=
| IsContext (c : KeybindingContext)
| Inherited (name : string).

(** The field [contexts: { [id: string]: KeybindingContext }], a plain
    object ([{}]) used as a map from ids to contexts: the finite map of its
    own properties. *)
Record KeybindingContextRegistry := mkContextRegistry {
  contexts : gmap string KeybindingContext
}.

(** [this.contexts[id]]: the own property of that name, else what the
    object inherits under that name, else [undefined]. *)
Definition contexts_get (r : KeybindingContextRegistry) (i : string)
    : option Member :=
  match contexts r !! i with
  | Some c => Some (IsContext c)
  | None =>
      if decide (i ∈ Object_prototype_names) then Some (Inherited i) else None
  end.

Definition already_registered (i : string) : Error :=
  mkError ("A keybinding context with ID " +:+ i +:+ " is already registered.").

(** [registerContext(...contexts)]: the loop inserts one argument after the
    other and throws at the first for which [this.contexts[id]] is truthy by
    then; what was inserted before the throw stays. *)
Fixpoint registerContext (r : KeybindingContextRegistry)
    (args : list KeybindingContext) : KeybindingContextRegistry * Completion :=
  match args with
  | [] => (r, Normal)
  | c :: rest =>
      match contexts_get r (id c) with
      | Some _ => (r, Thrown (already_registered (id c)))
      | None => registerContext (mkContextRegistry (<[id c := c]> (contexts r))) rest
      end
  end.

(** [getContext(contextId)] returns [this.contexts[contextId]] as it is. *)
Definition getContext (r : KeybindingContextRegistry) (contextId : string)
    : option Member :=
  contexts_get r contextId.

(** The constructor registers the two built-in contexts on the empty object. *)
Definition new_KeybindingContextRegistry : KeybindingContextRegistry :=
  let r0 := mkContextRegistry ∅ in
  let r1 := (registerContext r0 [KeybindingContexts.NOOP_CONTEXT]).1 in
  (registerContext r1 [KeybindingContexts.DEFAULT_CONTEXT]).1.

(** The states a context registry can be in: built by the constructor, then
    changed by calls of [registerContext] only (a call that throws keeps what
    it inserted before the throw). *)
Inductive ctx_reachable : KeybindingContextRegistry → Prop :=
| ctx_reach_new : ctx_reachable new_KeybindingContextRegistry
| ctx_reach_register r args :
    ctx_reachable r → ctx_reachable (registerContext r args).1.

(** An argument is refused when, at its turn, the [contexts] object has a
    value under its id: it had one before the call, own or inherited, or an
    earlier argument of the call brought it. *)
Definition present_at_turn (r : KeybindingContextRegistry)
    (args : list KeybindingContext) : Prop :=
  ∃ (i : nat) (c : KeybindingContext),
    args !! i = Some c ∧
    (is_Some (getContext r (id c)) ∨
     ∃ (j : nat) (c' : KeybindingContext), j < i ∧ args !! j = Some c' ∧ id c' = id c).

(** ** What keybinding.ts imports from modules outside this development *)

(** [./command]: of a [Command] the registry reads the [id] only. *)
Record Command := mkCommand { Command_id : string }.

(** [./keys] and the DOM: the Key Code type with [KeyCode.parse] (which
    throws on a malformed string), [KeyCode.equals] and
    [KeyCode.createKeyCode]; the part of a DOM keyboard event the latter reads;
    the handler objects the command registry hands out ([{ execute() }]). *)
Class Imports := {
  KeyCode : Type;
  KeyCode_parse : string → Error + KeyCode;
  KeyCode_equals : KeyCode → KeyCode → bool;
  KeyboardEventKeys : Type;
  KeyCode_createKeyCode : KeyboardEventKeys → KeyCode;
  CommandHandler : Type
}.

(** The injected [CommandRegistry], through the two methods the keybinding
    registry calls. *)
Record CommandRegistry `{Imports} := mkCommandRegistry {
  getCommand : string → option Command;
  getActiveHandler : string → option CommandHandler
}.

(** A command directory hands out, for an id, the command of that id. *)
Definition CommandRegistry_by_id `{Imports} (cr : CommandRegistry) : Prop :=
  ∀ (i : string) (c : Command), getCommand cr i = Some c → Command_id c = i.

(** A DOM keyboard event: its key data, whether [preventDefault()] takes
    effect on it (the event is cancelable, as the key events a browser
    dispatches are, and the listener is not passive), and the two flags [run]
    reads and sets through [preventDefault()] and [stopPropagation()]. *)
Record KeyboardEvent `{Imports} := mkEvent {
  keys : KeyboardEventKeys;
  cancelable : bool;
  defaultPrevented : bool;
  propagationStopped : bool
}.

(** [event.preventDefault()]: sets the flag of a cancelable event and leaves
    any other event as it is. *)
Definition preventDefault `{Imports} (e : KeyboardEvent) : KeyboardEvent :=
  {| keys := keys e; cancelable := cancelable e;
     defaultPrevented := if cancelable e then true else defaultPrevented e;
     propagationStopped := propagationStopped e |}.

Definition stopPropagation `{Imports} (e : KeyboardEvent) : KeyboardEvent :=
  {| keys := keys e; cancelable := cancelable e;
     defaultPrevented := defaultPrevented e;
     propagationStopped := true |}.

(** What [run] does to the outside, in the order it does it. *)
Inductive Effect `{Imports} :=
| IsEnabledCalled (contextId : string) (binding : Keybinding)
| Executed (handler : CommandHandler)
| PreventDefaultCalled
| StopPropagationCalled.

(** How a call of [run] ends: the event as it is then, the calls made, and
    whether the call returned or threw. *)
Record RunResult `{Imports} := mkRun {
  after : KeyboardEvent;
  effects : list Effect;
  completion : Completion
}.

#[global] Arguments mkRun {_} _ _ _.

(** The [TypeError] of calling [isEnabled] on a value that has no such
    method. *)
Definition isEnabled_not_a_function : Error :=
  mkError "context.isEnabled is not a function".

(** ** JavaScript array helpers *)

(** [a[i] = v]: overwrites inside the array, appends at [i = length], and
    beyond that leaves holes below [i]. The registry's constructor pushes one
    list per scope below [END] and no scope exceeds [END], so no hole ever
    arises there; the holes are filled with [hole] to keep the function total. *)
Definition array_assign {A} (hole : A) (i : nat) (v : A) (a : list A) : list A :=
  if decide (i < length a) then <[i := v]> a
  else a ++ replicate (i - length a) hole ++ [v].

(** [l.forEach(x => { if (p(x)) { result.push(x); } })] *)
Definition forEach_push {A} (p : A → bool) (l : list A) (result : list A) : list A :=
  foldl (λ acc x, if p x then acc ++ [x] else acc) result l.

(** [Array.prototype.sort(compare)], the sort of the language, which is
    stable (ECMAScript 2019): an element moves behind another only when
    [compare] is positive there. *)
Fixpoint sort_insert {A} (compare : A → A → Z) (x : A) (l : list A) : list A :=
  match l with
  | [] => [x]
  | y :: l' =>
      if (0 <? compare x y)%Z then y :: sort_insert compare x l'
      else x :: y :: l'
  end.

Fixpoint Array_sort {A} (compare : A → A → Z) (l : list A) : list A :=
  match l with
  | [] => []
  | x :: l' => sort_insert compare x (Array_sort compare l')
  end.

(** ** KeybindingRegistry *)

Record KeybindingRegistry `{Imports} := mkRegistry {
  keymaps : list (list Keybinding);
  commandRegistry : CommandRegistry;
  contextRegistry : KeybindingContextRegistry
}.

Definition PASSTHROUGH_PSEUDO_COMMAND : string := "passthrough".

Section Registry.
Context `{Imports}.

Definition with_keymaps (r : KeybindingRegistry)
    (km : list (list Keybinding)) : KeybindingRegistry :=
  {| keymaps := km; commandRegistry := commandRegistry r;
     contextRegistry := contextRegistry r |}.

(** The constructor: one empty list pushed per scope below [END]. *)
Definition new_KeybindingRegistry (cr : CommandRegistry)
    (ctx : KeybindingContextRegistry) : KeybindingRegistry :=
  {| keymaps := foldl (λ km _, km ++ [[]]) [] (seq DEFAULT (END - DEFAULT));
     commandRegistry := cr; contextRegistry := ctx |}.

(** [this.keymaps[scope]]; every read of the code is at a scope below
    [END], where the constructor has put a list. *)
Definition keymaps_at (r : KeybindingRegistry) (scope : KeybindingScope)
    : list Keybinding :=
  keymaps r !!! scope.

(** The class invariant the constructor establishes. *)
Definition keymaps_wf (r : KeybindingRegistry) : Prop :=
  END ≤ length (keymaps r).

(** [command && command.id === commandId] for
    [command = this.commandRegistry.getCommand(binding.command)]. *)
Definition bound_to (r : KeybindingRegistry) (commandId : string)
    (binding : Keybinding) : bool :=
  match getCommand (commandRegistry r) (command binding) with
  | Some c => bool_decide (Command_id c = commandId)
  | None => false
  end.

Definition getScopedKeybindingsForCommand (r : KeybindingRegistry)
    (scope : KeybindingScope) (commandId : string) : list Keybinding :=
  if decide (END ≤ scope) then []
  else forEach_push (bound_to r commandId) (keymaps_at r scope) [].

(** [isKeybindingShadowed] recurses on [++scope] until [scope >= END]; the
    recursion is written on the distance to [END]. *)
Fixpoint isKeybindingShadowed_upto (dist : nat) (r : KeybindingRegistry)
    (scope : KeybindingScope) (binding : Keybinding) : bool :=
  match dist with
  | 0 => false
  | S dist' =>
      let nextScope := S scope in
      if 0 <? length (getScopedKeybindingsForCommand r nextScope (command binding))
      then true
      else isKeybindingShadowed_upto dist' r nextScope binding
  end.

Definition isKeybindingShadowed (r : KeybindingRegistry)
    (scope : KeybindingScope) (binding : Keybinding) : bool :=
  isKeybindingShadowed_upto (END - scope) r scope binding.

(** [b.context ? this.contextRegistry.getContext(b.context) : undefined];
    the empty string is falsy. *)
Definition contextOf (r : KeybindingRegistry) (b : Keybinding)
    : option Member :=
  match context b with
  | Some c => if decide (c = "") then None else getContext (contextRegistry r) c
  | None => None
  end.

Definition hasContext (r : KeybindingRegistry) (b : Keybinding) : bool :=
  bool_decide (is_Some (contextOf r b)).

(** The comparator of [sortKeybindingsByPriority]. *)
Definition compareByPriority (r : KeybindingRegistry) (a b : Keybinding) : Z :=
  let acontext := contextOf r a in
  let bcontext := contextOf r b in
  if bool_decide (is_Some acontext) && negb (bool_decide (is_Some bcontext)) then (-1)%Z
  else if negb (bool_decide (is_Some acontext)) && bool_decide (is_Some bcontext) then 1%Z
  else 0%Z.

Definition sortKeybindingsByPriority (r : KeybindingRegistry)
    (keybindings : list Keybinding) : list Keybinding :=
  Array_sort (compareByPriority r) keybindings.

(** The body of the [try] in [getKeybindingsForKeyCode]: a stored string
    that does not parse throws into the [catch], which only logs. *)
Definition matchesKeyCode (r : KeybindingRegistry) (keyCode : KeyCode)
    (scope : KeybindingScope) (binding : Keybinding) : bool :=
  match KeyCode_parse (keybinding binding) with
  | inr bindingKeyCode =>
      if KeyCode_equals bindingKeyCode keyCode
      then negb (isKeybindingShadowed r scope binding)
      else false
  | inl _ => false
  end.

(** The scan of [getKeybindingsForKeyCode], before the sort. *)
Definition collectForKeyCode (r : KeybindingRegistry) (keyCode : KeyCode)
    : list Keybinding :=
  foldl (λ result scope,
           forEach_push (matchesKeyCode r keyCode scope) (keymaps_at r scope) result)
        [] (seq DEFAULT (END - DEFAULT)).

Definition getKeybindingsForKeyCode (r : KeybindingRegistry) (keyCode : KeyCode)
    : list Keybinding :=
  sortKeybindingsByPriority r (collectForKeyCode r keyCode).

(** [getKeybindingsForCommand]: the scopes from [END - 1] down to
    [DEFAULT], returning as soon as [result] is not empty. *)
Fixpoint getKeybindingsForCommand_loop (r : KeybindingRegistry)
    (commandId : string) (scopes : list KeybindingScope)
    (result : list Keybinding) : list Keybinding :=
  match scopes with
  | [] => result
  | scope :: rest =>
      let result' := forEach_push (bound_to r commandId) (keymaps_at r scope) result in
      if 0 <? length result' then result'
      else getKeybindingsForCommand_loop r commandId rest result'
  end.

Definition getKeybindingsForCommand (r : KeybindingRegistry)
    (commandId : string) : list Keybinding :=
  getKeybindingsForCommand_loop r commandId
    (reverse (seq DEFAULT (END - DEFAULT))) [].

(** [this.keymaps[KeybindingScope.DEFAULT].push(binding)]: the list of the
    DEFAULT scope grows in place. *)
Definition pushed (r : KeybindingRegistry) (binding : Keybinding)
    : KeybindingRegistry :=
  with_keymaps r (alter (λ km, km ++ [binding]) DEFAULT (keymaps r)).

(** [registerKeybinding]: everything sits in a [try] whose [catch] only
    logs, so the call returns normally whatever happens. *)
Definition registerKeybinding (r : KeybindingRegistry) (binding : Keybinding)
    : KeybindingRegistry :=
  match KeyCode_parse (keybinding binding) with
  | inl _ => r
  | inr keyCode =>
      let existingBindings := getKeybindingsForKeyCode r keyCode in
      let collided :=
        filter (λ b, context b = context binding) existingBindings in
      if (0 <? length existingBindings) && (0 <? length collided) then r
      else pushed r binding
  end.

Definition registerKeybindings (r : KeybindingRegistry)
    (bindings : list Keybinding) : KeybindingRegistry :=
  foldl registerKeybinding r bindings.

Definition isPseudoCommand (commandId : string) : bool :=
  bool_decide (commandId = PASSTHROUGH_PSEUDO_COMMAND).

Definition resetKeybindingsForScope (r : KeybindingRegistry)
    (scope : KeybindingScope) : KeybindingRegistry :=
  with_keymaps r (array_assign [] scope [] (keymaps r)).

Definition resetKeybindings (r : KeybindingRegistry) : KeybindingRegistry :=
  foldl (λ r' i, with_keymaps r' (array_assign [] i [] (keymaps r')))
        r (seq (DEFAULT + 1) (END - (DEFAULT + 1))).

(** The loop of [setKeymap]: [None] when a string throws in
    [KeyCode.parse], else the bindings collected. *)
Fixpoint setKeymap_collect (keybindings customBindings : list Keybinding)
    : option (list Keybinding) :=
  match keybindings with
  | [] => Some customBindings
  | kb :: rest =>
      match KeyCode_parse (keybinding kb) with
      | inr _ => setKeymap_collect rest (customBindings ++ [kb])
      | inl _ => None
      end
  end.

Definition setKeymap (r : KeybindingRegistry) (scope : KeybindingScope)
    (keybindings : list Keybinding) : KeybindingRegistry :=
  match setKeymap_collect keybindings [] with
  | Some customBindings =>
      with_keymaps r (array_assign [] scope customBindings (keymaps r))
  | None => resetKeybindingsForScope r scope
  end.

(** The [for ... of] loop of [run], with the effects so far in [trace]. The
    test [!context || context.isEnabled(binding)] calls the predicate of a
    context, and throws a [TypeError] when what [getContext] returned is an
    inherited member, which is truthy and has no [isEnabled]. *)
Fixpoint run_loop (r : KeybindingRegistry) (bindings : list Keybinding)
    (event : KeyboardEvent) (trace : list Effect) : RunResult :=
  match bindings with
  | [] => mkRun event trace Normal
  | binding :: rest =>
      let handle (trace1 : list Effect) : RunResult :=
        if isPseudoCommand (command binding) then mkRun event trace1 Normal
        else
          match getCommand (commandRegistry r) (command binding) with
          | Some cmd =>
              let trace2 :=
                match getActiveHandler (commandRegistry r) (Command_id cmd) with
                | Some commandHandler => trace1 ++ [Executed commandHandler]
                | None => trace1
                end in
              mkRun (stopPropagation (preventDefault event))
                    (trace2 ++ [PreventDefaultCalled; StopPropagationCalled])
                    Normal
          | None => mkRun event trace1 Normal
          end in
      match contextOf r binding with
      | None => handle trace
      | Some (IsContext c) =>
          let trace1 := trace ++ [IsEnabledCalled (id c) binding] in
          if isEnabled c binding then handle trace1
          else run_loop r rest event trace1
      | Some (Inherited _) => mkRun event trace (Thrown isEnabled_not_a_function)
      end
  end.

Definition run (r : KeybindingRegistry) (event : KeyboardEvent) : RunResult :=
  if defaultPrevented event then mkRun event [] Normal
  else
    let keyCode := KeyCode_createKeyCode (keys event) in
    let bindings := getKeybindingsForKeyCode r keyCode in
    run_loop r bindings event [].

(** [isActive]. *)
Definition isActive (r : KeybindingRegistry) (binding : Keybinding) : bool :=
  if isPseudoCommand (command binding) then true
  else
    match getCommand (commandRegistry r) (command binding) with
    | Some cmd => bool_decide (is_Some (getActiveHandler (commandRegistry r) (Command_id cmd)))
    | None => false
    end.

End Registry.

(** ** The Key Code grammar *)

Module Keys.

(** Modelled from the spec: [./keys], the module of [KeyCode], is missing
    from the sources; a Key Code is a primary key, named as it is written in
    a keystroke string, and the four modifier flags. *)
Record KeyCode := mkKeyCode {
  key : string;
  ctrl : bool;
  shift : bool;
  alt : bool;
  meta : bool
}.

#[global] Instance KeyCode_eq_dec : EqDecision KeyCode.
Proof. solve_decision. Defined.

(** Modelled from the spec: [KeyCode.equals] is missing; equality is
    structural, on the primary key and the whole modifier set. *)
Definition equals (a b : KeyCode) : bool := bool_decide (a = b).

(** Modelled from the spec: the platform-neutral modifiers of [./keys], as
    keybinding.spec.ts uses them. *)
Inductive Modifier := M1 | M2 | M3 | M4.

#[global] Instance Modifier_eq_dec : EqDecision Modifier.
Proof. solve_decision. Defined.

(** Modelled from the spec: the explicit field set [{ first, modifiers }]
    that [createKeyCode] accepts. *)
Record Keystroke := mkKeystroke {
  first : string;
  modifiers : list Modifier
}.

(** Modelled from the spec: [String.prototype.split] on the separator of
    the grammar; the empty string splits into one empty part. *)
Fixpoint split_plus (s : string) : list string :=
  match s with
  | EmptyString => [EmptyString]
  | String c s' =>
      if decide (c = "+"%char) then EmptyString :: split_plus s'
      else
        match split_plus s' with
        | t :: ts => String c t :: ts
        | [] => [String c EmptyString]
        end
  end.

(** Modelled from the spec: the modifier words of the grammar, aliases
    included. *)
Definition modifier_words : list string :=
  ["ctrl"; "shift"; "alt"; "option"; "meta"; "cmd"; "ctrlcmd"].

(** Modelled from the spec: a character of a string. *)
Fixpoint occurs (c : ascii) (s : string) : bool :=
  match s with
  | EmptyString => false
  | String c' s' => bool_decide (c' = c) || occurs c s'
  end.

(** Modelled from the spec: a string without capital letters, as the
    canonical serialization is. *)
Fixpoint lower_case (s : string) : bool :=
  match s with
  | EmptyString => true
  | String c s' =>
      negb ((65 <=? nat_of_ascii c) && (nat_of_ascii c <=? 90)) && lower_case s'
  end.

(** Modelled from the spec: what the name of a physical key may be, for the
    grammar to tell it from a modifier and from the separator: lowercase,
    without the separator, and none of the modifier words. *)
Definition key_name (k : string) : Prop :=
  occurs "+"%char k = false ∧ (k ∉ modifier_words) ∧ lower_case k = true.

(** Modelled from the spec: the error of a part that is neither modifier
    nor key, with the message keybinding.spec.ts expects. *)
Definition unrecognized_key (keystroke : string) : Error :=
  mkError ("Unrecognized key in " +:+ keystroke).

(** Modelled from the spec: the error of a meta alias off Apple hosts, with
    the message keybinding.spec.ts expects. *)
Definition meta_is_osx_only (keystroke : string) : Error :=
  mkError ("Can't parse keybinding " +:+ keystroke +:+ " meta is for OSX only").

(** Modelled from the spec: the error of a second primary key; its message
    is not given anywhere. *)
Definition several_keys (keystroke : string) : Error :=
  mkError ("Several keys in " +:+ keystroke).

Section Grammar.
(** The host platform, and the table of the physical keys the grammar
    recognizes by name. *)
Variable isOSX : bool.
Variable recognized : string → bool.

(** Modelled from the spec: [KeyCode.createKeyCode] is missing; [M1] is
    meta on Apple hosts and ctrl elsewhere, [M2] shift, [M3] alt, [M4] the
    ctrl key of Apple hosts. *)
Definition createKeyCode (ks : Keystroke) : KeyCode :=
  let has m := bool_decide (m ∈ modifiers ks) in
  {| key := first ks;
     ctrl := if isOSX then has M4 else has M1;
     shift := has M2;
     alt := has M3;
     meta := if isOSX then has M1 else false |}.

(** Modelled from the spec: the state of [KeyCode.parse] between two
    parts of the keystroke string. *)
Record Parsed := mkParsed {
  p_key : option string;
  p_ctrl : bool;
  p_shift : bool;
  p_alt : bool;
  p_meta : bool
}.

(** Modelled from the spec: a modifier word sets its flag. *)
Definition set_ctrl (p : Parsed) : Parsed :=
  {| p_key := p_key p; p_ctrl := true; p_shift := p_shift p;
     p_alt := p_alt p; p_meta := p_meta p |}.

(** Modelled from the spec: a modifier word sets its flag. *)
Definition set_shift (p : Parsed) : Parsed :=
  {| p_key := p_key p; p_ctrl := p_ctrl p; p_shift := true;
     p_alt := p_alt p; p_meta := p_meta p |}.

(** Modelled from the spec: a modifier word sets its flag. *)
Definition set_alt (p : Parsed) : Parsed :=
  {| p_key := p_key p; p_ctrl := p_ctrl p; p_shift := p_shift p;
     p_alt := true; p_meta := p_meta p |}.

(** Modelled from the spec: a modifier word sets its flag. *)
Definition set_meta (p : Parsed) : Parsed :=
  {| p_key := p_key p; p_ctrl := p_ctrl p; p_shift := p_shift p;
     p_alt := p_alt p; p_meta := true |}.

(** Modelled from the spec: the remaining part is the primary key. *)
Definition set_key (k : string) (p : Parsed) : Parsed :=
  {| p_key := Some k; p_ctrl := p_ctrl p; p_shift := p_shift p;
     p_alt := p_alt p; p_meta := p_meta p |}.

(** Modelled from the spec: one part of the keystroke string. [option]
    is alt on every host (keybinding.spec.ts parses it on both), [cmd] and
    [meta] are for Apple hosts only, [ctrlcmd] is meta there and ctrl
    elsewhere; any other part has to name a recognized key, and only one
    part may. *)
Definition parse_part (keystroke : string) (p : Parsed) (part : string)
    : Error + Parsed :=
  if decide (part = "ctrl") then inr (set_ctrl p)
  else if decide (part = "shift") then inr (set_shift p)
  else if decide (part = "alt" ∨ part = "option") then inr (set_alt p)
  else if decide (part = "meta" ∨ part = "cmd") then
    if isOSX then inr (set_meta p) else inl (meta_is_osx_only keystroke)
  else if decide (part = "ctrlcmd") then
    inr (if isOSX then set_meta p else set_ctrl p)
  else if recognized part then
    match p_key p with
    | None => inr (set_key part p)
    | Some _ => inl (several_keys keystroke)
    end
  else inl (unrecognized_key keystroke).

Fixpoint parse_parts (keystroke : string) (p : Parsed) (parts : list string)
    : Error + Parsed :=
  match parts with
  | [] => inr p
  | part :: rest =>
      match parse_part keystroke p part with
      | inr p' => parse_parts keystroke p' rest
      | inl e => inl e
      end
  end.

(** Modelled from the spec: [KeyCode.parse] is missing; it splits on the
    separator, reads each part, and throws (here: [inl]) on a part that is
    neither modifier nor key, on a meta alias off Apple hosts and on a
    second primary key. A Key Code has a primary key, so a string without
    one does not parse either. *)
Definition parse (keystroke : string) : Error + KeyCode :=
  match parse_parts keystroke (mkParsed None false false false false)
                    (split_plus keystroke) with
  | inr p =>
      match p_key p with
      | Some k =>
          inr {| key := k; ctrl := p_ctrl p; shift := p_shift p;
                 alt := p_alt p; meta := p_meta p |}
      | None => inl (unrecognized_key keystroke)
      end
  | inl e => inl e
  end.

(** Modelled from the spec: the parts [toString] writes, modifiers first
    in the order ctrl, meta, shift, alt, then the key. *)
Definition toString_parts (kc : KeyCode) : list string :=
  (if ctrl kc then ["ctrl"] else []) ++
  (if meta kc then ["meta"] else []) ++
  (if shift kc then ["shift"] else []) ++
  (if alt kc then ["alt"] else []) ++
  [key kc].

(** Modelled from the spec: [KeyCode.prototype.toString] is missing; the
    parts joined by the separator. *)
Definition toString (kc : KeyCode) : string :=
  String.concat "+" (toString_parts kc).

(** Modelled from the spec: the Key Codes of a host. Its key is a
    recognized one, and meta exists on Apple hosts only. *)
Definition valid (kc : KeyCode) : Prop :=
  recognized (key kc) = true ∧ (meta kc = true → isOSX = true).

(** Modelled from the spec: a table of keys whose names the grammar can
    tell from the modifier words and the separator. *)
Definition key_table_ok : Prop :=
  ∀ k : string, recognized k = true → key_name k.

End Grammar.

(** The keys named in keybinding.spec.ts and in the scenarios of the
    specification. *)
Definition test_keys (k : string) : bool :=
  bool_decide (k ∈ ["a"; "b"; "c"; "s"; "`"; "f1"; "f2"; "f3"; "tab"]).

End Keys.

(** The registry's imports, with the Key Code grammar above behind
    [./keys]; a handler is known by a name. *)
Definition Keys_Imports (isOSX : bool) (recognized : string → bool) : Imports :=
  {| KeyCode := Keys.KeyCode;
     KeyCode_parse := Keys.parse isOSX recognized;
     KeyCode_equals := Keys.equals;
     KeyboardEventKeys := Keys.Keystroke;
     KeyCode_createKeyCode := Keys.createKeyCode isOSX;
     CommandHandler := string |}.

(** ** Vocabulary of the statements *)

Section Vocabulary.
Context `{Imports}.

(** The keybinding string of a binding parses. *)
Definition parses (b : Keybinding) : Prop :=
  ∃ keyCode : KeyCode, KeyCode_parse (keybinding b) = inr keyCode.

(** The bindings of one scope that resolve, in the command registry, to
    the command of the given id. *)
Definition boundIn (r : KeybindingRegistry) (commandId : string)
    (scope : KeybindingScope) : list Keybinding :=
  filter (λ b, bound_to r commandId b) (keymaps_at r scope).

(** The unshadowed bindings of one scope whose string parses to the given
    Key Code, in stored order. *)
Definition matchingIn (r : KeybindingRegistry) (keyCode : KeyCode)
    (scope : KeybindingScope) : list Keybinding :=
  filter (λ b, matchesKeyCode r keyCode scope b) (keymaps_at r scope).

(** [!context || context.isEnabled(binding)], the test of [run]: its value,
    or [None] when evaluating it throws. *)
Definition eligible (r : KeybindingRegistry) (b : Keybinding) : option bool :=
  match contextOf r b with
  | None => Some true
  | Some (IsContext c) => Some (isEnabled c b)
  | Some (Inherited _) => None
  end.

(** The calls of context predicates that examining the given bindings
    takes, in order: one per binding whose context is a registered one. *)
Definition contextCalls (r : KeybindingRegistry) (l : list Keybinding)
    : list Effect :=
  l ≫= λ b,
    match contextOf r b with
    | Some (IsContext c) => [IsEnabledCalled (id c) b]
    | _ => []
    end.

End Vocabulary.

#[global] Arguments contextCalls : simpl never.

(** ** The scenarios of keybinding.spec.ts and of the specification *)

Module Scenario.

(** The host of the test suite ([isOSX] stubbed to false). *)
Definition imports : Imports := Keys_Imports false Keys.test_keys.
#[local] Existing Instance imports.

Definition TEST_COMMAND : Command := mkCommand "test.command".
Definition TEST_COMMAND2 : Command := mkCommand "test.command2".

(** The two commands of [TestContribution]; the first has an active
    handler, the second none. *)
Definition commands : CommandRegistry :=
  {| getCommand i :=
       if decide (i = "test.command") then Some TEST_COMMAND
       else if decide (i = "test.command2") then Some TEST_COMMAND2
       else None;
     getActiveHandler i :=
       if decide (i = "test.command") then Some "test.command.handler"
       else None |}.

(** [TestContext], always enabled. *)
Definition testContext : KeybindingContext :=
  {| id := "testContext"; isEnabled := λ _, true |}.

Definition testContexts : KeybindingContextRegistry :=
  (registerContext new_KeybindingContextRegistry [testContext]).1.

Definition fresh : KeybindingRegistry :=
  new_KeybindingRegistry commands testContexts.

Definition ctrl_a : Keys.Keystroke := Keys.mkKeystroke "a" [Keys.M1].
Definition tab : Keys.Keystroke := Keys.mkKeystroke "tab" [].

Definition keydown (ks : Keys.Keystroke) : KeyboardEvent :=
  {| keys := ks; cancelable := true;
     defaultPrevented := false; propagationStopped := false |}.

(** Three bindings of one keystroke: in the always-disabled built-in
    context, in the test context, and global. *)
Definition disabled_a : Keybinding :=
  mkKeybinding "test.command2" "ctrl+a" (Some "default.keybinding.context").
Definition test_a : Keybinding :=
  mkKeybinding "test.command" "ctrl+a" (Some "testContext").
Definition global_a : Keybinding :=
  mkKeybinding "test.command2" "ctrl+a" None.

Definition three_on_ctrl_a : KeybindingRegistry :=
  registerKeybindings fresh [global_a; disabled_a; test_a].



(** The pseudo-command on tab, in the test context, before a global
    binding of the same key. *)
Definition passthrough_tab : Keybinding :=
  mkKeybinding "passthrough" "tab" (Some "testContext").
Definition test_tab : Keybinding :=
  mkKeybinding "test.command" "tab" None.

Definition with_passthrough : KeybindingRegistry :=
  registerKeybindings fresh [test_tab; passthrough_tab].

(** A user keymap that rebinds the second command. *)
Definition user_b : Keybinding :=
  mkKeybinding "test.command2" "ctrl+b" None.

Definition user_rebinds_command2 : KeybindingRegistry :=
  setKeymap (registerKeybinding fresh test_a) USER [user_b].

(** A user keymap that rebinds the first command, as in the test "should
    only return the more specific keybindings". *)
Definition user_c : Keybinding :=
  mkKeybinding "test.command" "ctrl+c" None.

Definition user_rebinds_command : KeybindingRegistry :=
  setKeymap (registerKeybinding fresh test_a) USER [user_c].

(** A second binding with the keystroke and the context of [test_a]. *)
Definition twin_a : Keybinding :=
  mkKeybinding "test.command2" "ctrl+a" (Some "testContext").

(** The Key Code of ctrl+a on that host. *)
Definition kc_ctrl_a : Keys.KeyCode := Keys.mkKeyCode "a" true false false false.

(** meta+` on an Apple host. *)
Definition meta_backquote : Keys.KeyCode :=
  Keys.createKeyCode true (Keys.mkKeystroke "`" [Keys.M1]).

(** The always-disabled binding alone. *)
Definition only_disabled : KeybindingRegistry :=
  registerKeybinding fresh disabled_a.

(** Another context of the test suite's kind. *)
Definition otherContext : KeybindingContext :=
  {| id := "otherContext"; isEnabled := λ _, true |}.

(** A context, and a binding in it, whose id is the name of a property
    that every plain object inherits. *)
Definition constructorContext : KeybindingContext :=
  {| id := "constructor"; isEnabled := λ _, true |}.

Definition constructor_a : Keybinding :=
  mkKeybinding "test.command" "ctrl+a" (Some "constructor").

(** A keystroke string that does not parse. *)
Definition invalid_binding : Keybinding :=
  mkKeybinding "test.command" "ctrl+invalid" None.

End Scenario.

(** ** The rest of the context registry *)

(** [initialize()]: every contributed context is registered by a call of its
    own, from inside a [forEach] that the first throw leaves. *)
Fixpoint initialize (r : KeybindingContextRegistry)
    (contributions : list KeybindingContext)
    : KeybindingContextRegistry * Completion :=
  match contributions with
  | [] => (r, Normal)
  | c :: rest =>
      match registerContext r [c] with
      | (r', Normal) => initialize r' rest
      | (r', Thrown e) => (r', Thrown e)
      end
  end.

(** ** Further vocabulary *)

Section MoreVocabulary.
Context `{Imports}.

(** No keymap is loaded: the scopes above DEFAULT are empty. *)
Definition no_keymaps (r : KeybindingRegistry) : Prop :=
  ∀ scope : KeybindingScope, DEFAULT < scope < END → keymaps_at r scope = [].

(** No two bindings stored at different places of the DEFAULT scope have
    equal Key Codes and the same context field. *)
Definition collision_free (r : KeybindingRegistry) : Prop :=
  ∀ (i j : nat) (b1 b2 : Keybinding) (k1 k2 : KeyCode),
    i ≠ j →
    keymaps_at r DEFAULT !! i = Some b1 →
    keymaps_at r DEFAULT !! j = Some b2 →
    KeyCode_parse (keybinding b1) = inr k1 →
    KeyCode_parse (keybinding b2) = inr k2 →
    KeyCode_equals k1 k2 = true →
    context b1 ≠ context b2.

End MoreVocabulary.

(** * Properties *)

(** ** The context registry *)

Lemma contexts_get_insert_eq (m : gmap string KeybindingContext)
    (c : KeybindingContext) :
  contexts_get (mkContextRegistry (<[id c := c]> m)) (id c) = Some (IsContext c).
Proof. unfold contexts_get. simpl. by rewrite lookup_insert_eq. Qed.

Lemma contexts_get_insert_ne (m : gmap string KeybindingContext)
    (c : KeybindingContext) (k : string) :
  id c ≠ k →
  contexts_get (mkContextRegistry (<[id c := c]> m)) k =
  contexts_get (mkContextRegistry m) k.
Proof. intros Hne. unfold contexts_get. simpl. by rewrite lookup_insert_ne. Qed.

Lemma registerContext_keeps (args : list KeybindingContext) :
  ∀ (r : KeybindingContextRegistry) (k : string) (m : Member),
    getContext r k = Some m → getContext (registerContext r args).1 k = Some m.
Proof.
  induction args as [|a args IH]; intros r k m Hk; simpl; [done|].
  destruct (contexts_get r (id a)) eqn:Ha; [done|].
  apply IH. unfold getContext in *. destruct r as [own].
  destruct (decide (id a = k)) as [Heq|Hne].
  - rewrite Heq in Ha. congruence.
  - by rewrite contexts_get_insert_ne.
Qed.

Lemma ctx_reachable_builtins (r : KeybindingContextRegistry) :
  ctx_reachable r →
  getContext r (id KeybindingContexts.NOOP_CONTEXT)
    = Some (IsContext KeybindingContexts.NOOP_CONTEXT) ∧
  getContext r (id KeybindingContexts.DEFAULT_CONTEXT)
    = Some (IsContext KeybindingContexts.DEFAULT_CONTEXT).
Proof.
  induction 1 as [|r args _ [IHn IHd]].
  - split; reflexivity.
  - split; by apply registerContext_keeps.
Qed.

Lemma present_at_turn_head (r : KeybindingContextRegistry)
    (c : KeybindingContext) (rest : list KeybindingContext) :
  is_Some (getContext r (id c)) → present_at_turn r (c :: rest).
Proof. intros Hc. exists 0, c. split; [done|by left]. Qed.

Lemma present_at_turn_tail (r : KeybindingContextRegistry)
    (c : KeybindingContext) (rest : list KeybindingContext) :
  getContext r (id c) = None →
  present_at_turn r (c :: rest) ↔
  present_at_turn (mkContextRegistry (<[id c := c]> (contexts r))) rest.
Proof.
  intros Hfree. destruct r as [own]. unfold present_at_turn, getContext in *.
  simpl. split.
  - intros (i & c0 & Hi & Hc0). destruct i as [|i]; simpl in Hi.
    + injection Hi as <-. destruct Hc0 as [Hin|(j & ? & Hj & _)]; [|lia].
      rewrite Hfree in Hin. by destruct Hin.
    + exists i, c0. split; [done|].
      destruct Hc0 as [Hin|(j & c' & Hj & Hc' & Hid)].
      * left. destruct (decide (id c = id c0)) as [Heq|Hne].
        -- rewrite <- Heq, contexts_get_insert_eq. eauto.
        -- by rewrite contexts_get_insert_ne.
      * destruct j as [|j]; simpl in Hc'.
        -- injection Hc' as <-. left. rewrite <- Hid, contexts_get_insert_eq. eauto.
        -- right. exists j, c'. split; [lia|done].
  - intros (i & c0 & Hi & Hc0). exists (S i), c0. split; [done|].
    destruct Hc0 as [Hin|(j & c' & Hj & Hc' & Hid)].
    + destruct (decide (id c = id c0)) as [Heq|Hne].
      * right. exists 0, c. split; [lia|done].
      * left. by rewrite contexts_get_insert_ne in Hin.
    + right. exists (S j), c'. split; [lia|done].
Qed.

Lemma registerContext_throws (args : list KeybindingContext) :
  ∀ r : KeybindingContextRegistry,
    present_at_turn r args →
    ∃ c : KeybindingContext,
      c ∈ args ∧ (registerContext r args).2 = Thrown (already_registered (id c)).
Proof.
  induction args as [|a args IH]; intros r Hp.
  - destruct Hp as (i & c & Hi & _). by destruct i.
  - simpl. destruct (contexts_get r (id a)) eqn:Ha.
    + exists a. split; [left|done].
    + apply present_at_turn_tail in Hp; [|done].
      destruct (IH _ Hp) as (c & Hc & Hthrow). exists c. split; [by right|done].
Qed.

Lemma registerContext_inserts (args : list KeybindingContext) :
  ∀ r : KeybindingContextRegistry,
    ¬ present_at_turn r args →
    (registerContext r args).2 = Normal ∧
    ∀ c : KeybindingContext,
      c ∈ args → getContext (registerContext r args).1 (id c) = Some (IsContext c).
Proof.
  induction args as [|a args IH]; intros r Hnp.
  - split; [done|]. intros c Hc. by apply elem_of_nil in Hc.
  - simpl. destruct (contexts_get r (id a)) eqn:Ha.
    + destruct Hnp. apply present_at_turn_head. unfold getContext. rewrite Ha. eauto.
    + assert (Hnp' : ¬ present_at_turn (mkContextRegistry (<[id a := a]> (contexts r))) args).
      { intros Hp. apply Hnp. by apply present_at_turn_tail. }
      destruct (IH _ Hnp') as [Hnormal Hall]. split; [done|].
      intros c Hc. apply elem_of_cons in Hc as [->|Hc]; [|by apply Hall].
      apply registerContext_keeps. unfold getContext. apply contexts_get_insert_eq.
Qed.

(** C9, where the code falls short of it. An argument whose id is the name
    of a property that a plain object inherits, such as ["constructor"], is
    refused although no context of that id is registered: [registerContext]
    throws the error of a duplicate for it, and leaves the registry as it was,
    without the argument. *)
Theorem registerContext_refuses_inherited_id
    (r : KeybindingContextRegistry) (c : KeybindingContext)
    (rest : list KeybindingContext) :
  id c ∈ Object_prototype_names →
  contexts r !! id c = None →
  registerContext r (c :: rest) = (r, Thrown (already_registered (id c))) ∧
  ∀ m : Member, getContext r (id c) = Some m → m = Inherited (id c).
Proof.
  intros Hname Hown. split.
  - simpl. unfold contexts_get. rewrite Hown. by rewrite decide_True.
  - intros m. unfold getContext, contexts_get. rewrite Hown.
    rewrite decide_True by done. by intros [= <-].
Qed.

(** ** Arrays *)

Lemma forEach_push_filter {A} (p : A → bool) (l result : list A) :
  forEach_push p l result = result ++ filter (λ x, p x) l.
Proof.
  unfold forEach_push. revert result.
  induction l as [|x l IH]; intros result; simpl.
  - by rewrite app_nil_r.
  - rewrite IH. destruct (p x) eqn:Hp.
    + rewrite filter_cons_True by (rewrite Hp; exact I). by rewrite <- app_assoc.
    + rewrite filter_cons_False; [done|]. rewrite Hp. by intros [].
Qed.

Lemma array_assign_at {A} `{!Inhabited A} (hole v : A) (i : nat) (a : list A) :
  array_assign hole i v a !!! i = v.
Proof.
  unfold array_assign. case_decide as Hi.
  - by apply list_lookup_total_insert_eq.
  - rewrite lookup_total_app_r by lia.
    rewrite <- (length_replicate (i - length a) hole) at 1.
    by rewrite list_lookup_total_middle.
Qed.

Lemma array_assign_other {A} `{!Inhabited A} (hole v : A) (i j : nat) (a : list A) :
  i ≠ j → j < length a → array_assign hole i v a !!! j = a !!! j.
Proof.
  intros Hne Hj. unfold array_assign. case_decide as Hi.
  - by apply list_lookup_total_insert_ne.
  - by apply lookup_total_app_l.
Qed.

Lemma array_assign_length {A} (hole v : A) (i : nat) (a : list A) :
  length a ≤ length (array_assign hole i v a).
Proof.
  unfold array_assign. case_decide.
  - by rewrite length_insert.
  - rewrite length_app. lia.
Qed.

(** ** Lookups by command, shadowing *)

Section RegistryFacts.
Context `{Imports}.
Implicit Types (r : KeybindingRegistry) (b binding : Keybinding).
Implicit Types (scope : KeybindingScope) (commandId : string).

Lemma bound_to_true r commandId b :
  bound_to r commandId b = true ↔
  ∃ c : Command,
    getCommand (commandRegistry r) (command b) = Some c ∧ Command_id c = commandId.
Proof.
  unfold bound_to. destruct (getCommand _ _) as [c|].
  - rewrite bool_decide_eq_true. split; [eauto|]. by intros (? & [= <-] & ?).
  - split; [done|]. by intros (? & ? & _).
Qed.

Lemma bound_to_by_id r b b' :
  CommandRegistry_by_id (commandRegistry r) →
  bound_to r (command b) b' = true ↔
  command b' = command b ∧ is_Some (getCommand (commandRegistry r) (command b')).
Proof.
  intros Hid. rewrite bound_to_true. split.
  - intros (c & Hc & Heq). split; [|eauto]. by rewrite <- (Hid _ _ Hc).
  - intros [Heq [c Hc]]. exists c. split; [done|]. by rewrite (Hid _ _ Hc).
Qed.

Lemma getScopedKeybindingsForCommand_filter r scope commandId :
  getScopedKeybindingsForCommand r scope commandId =
  if decide (END ≤ scope) then []
  else filter (λ b, bound_to r commandId b) (keymaps_at r scope).
Proof.
  unfold getScopedKeybindingsForCommand. case_decide; [done|].
  by rewrite forEach_push_filter.
Qed.

Lemma filter_nonempty {A} (p : A → bool) (l : list A) :
  (0 <? length (filter (λ x, p x) l)) = true ↔ ∃ x, x ∈ l ∧ p x = true.
Proof.
  rewrite Nat.ltb_lt. split.
  - destruct (filter _ l) as [|x l'] eqn:Hf; simpl; [lia|]. intros _.
    assert (Hx : x ∈ filter (λ x, p x) l) by (rewrite Hf; left).
    apply list_elem_of_filter in Hx as [Hp Hx]. exists x. split; [done|].
    by apply Is_true_true.
  - intros (x & Hx & Hp).
    assert (Hin : x ∈ filter (λ x, p x) l).
    { apply list_elem_of_filter. split; [by apply Is_true_true|done]. }
    destruct (filter _ l); [by apply elem_of_nil in Hin|simpl; lia].
Qed.

Lemma getScopedKeybindingsForCommand_nonempty r scope commandId :
  (0 <? length (getScopedKeybindingsForCommand r scope commandId)) = true ↔
  scope < END ∧ ∃ b, b ∈ keymaps_at r scope ∧ bound_to r commandId b = true.
Proof.
  rewrite getScopedKeybindingsForCommand_filter. case_decide as Hs.
  - simpl. split; [done|]. intros [? _]. lia.
  - rewrite filter_nonempty. split; [intros; split; [lia|done]|by intros [_ ?]].
Qed.

(** The recursion equation of the source. *)
Lemma isKeybindingShadowed_unfold r scope binding :
  isKeybindingShadowed r scope binding =
  if decide (END ≤ scope) then false
  else
    let nextScope := S scope in
    if 0 <? length (getScopedKeybindingsForCommand r nextScope (command binding))
    then true
    else isKeybindingShadowed r nextScope binding.
Proof.
  unfold isKeybindingShadowed. case_decide as Hs.
  - by replace (END - scope) with 0 by lia.
  - replace (END - scope) with (S (END - S scope)) by lia. done.
Qed.

Lemma isKeybindingShadowed_upto_true (dist : nat) :
  ∀ r scope binding,
    isKeybindingShadowed_upto dist r scope binding = true ↔
    ∃ (s : KeybindingScope) (b : Keybinding),
      (scope < s ≤ scope + dist ∧ s < END) ∧
      b ∈ keymaps_at r s ∧ bound_to r (command binding) b = true.
Proof.
  induction dist as [|dist IH]; intros r scope binding; simpl.
  - split; [done|]. intros (s & _ & [? _] & _). lia.
  - destruct (0 <? length _) eqn:Hnext.
    + apply getScopedKeybindingsForCommand_nonempty in Hnext as (Hs & b & Hb & Hc).
      split; [|done]. intros _. exists (S scope), b. repeat split; [lia..|done|done].
    + rewrite IH. split.
      * intros (s & b & [Hs Hend] & Hb). exists s, b. split; [lia|done].
      * intros (s & b & [Hs Hend] & Hb & Hc).
        destruct (decide (s = S scope)) as [->|Hne].
        -- assert ((0 <? length (getScopedKeybindingsForCommand r (S scope)
                       (command binding))) = true) as Hyes
             by (apply getScopedKeybindingsForCommand_nonempty; eauto).
           congruence.
        -- exists s, b. split; [lia|done].
Qed.

Lemma isKeybindingShadowed_true r scope binding :
  isKeybindingShadowed r scope binding = true ↔
  ∃ (s : KeybindingScope) (b : Keybinding),
    scope < s < END ∧ b ∈ keymaps_at r s ∧ bound_to r (command binding) b = true.
Proof.
  unfold isKeybindingShadowed. rewrite isKeybindingShadowed_upto_true. split.
  - intros (s & b & [Hs Hend] & Hb). exists s, b. split; [lia|done].
  - intros (s & b & Hs & Hb). exists s, b. split; [lia|done].
Qed.

(** C4. Below [END], [isKeybindingShadowed] answers true exactly when a
    scope strictly above the given one and below [END], the next one or any
    further one, holds a binding with the command id of the given binding
    that resolves in the command registry; the keystrokes of the two
    bindings play no part. *)
Theorem isKeybindingShadowed_by_any_higher_scope r scope binding :
  CommandRegistry_by_id (commandRegistry r) →
  scope < END →
  (isKeybindingShadowed r scope binding = true ↔
  ∃ (s : KeybindingScope) (b : Keybinding),
    scope < s < END ∧
    b ∈ keymaps_at r s ∧
    command b = command binding ∧
    is_Some (getCommand (commandRegistry r) (command b))).
Proof.
  intros Hid _. rewrite isKeybindingShadowed_true.
  split; intros (s & b & Hs & Hb & Hc); exists s, b; (split; [done|split; [done|]]).
  - by apply bound_to_by_id.
  - by apply bound_to_by_id.
Qed.

End RegistryFacts.

Section CommandLookup.
Context `{Imports}.
Implicit Types (r : KeybindingRegistry) (b : Keybinding) (commandId : string).

Lemma getKeybindingsForCommand_loop_first r commandId
    (scope : KeybindingScope) (rest : list KeybindingScope) :
  getKeybindingsForCommand_loop r commandId (scope :: rest) [] =
  if decide (boundIn r commandId scope = []) then
    getKeybindingsForCommand_loop r commandId rest []
  else boundIn r commandId scope.
Proof.
  simpl. rewrite forEach_push_filter. simpl. fold (boundIn r commandId scope).
  by destruct (boundIn r commandId scope) as [|b l].
Qed.

Lemma getKeybindingsForCommand_cases r commandId :
  getKeybindingsForCommand r commandId =
  if decide (boundIn r commandId WORKSPACE = []) then
    if decide (boundIn r commandId USER = []) then boundIn r commandId DEFAULT
    else boundIn r commandId USER
  else boundIn r commandId WORKSPACE.
Proof.
  unfold getKeybindingsForCommand.
  change (reverse (seq DEFAULT (END - DEFAULT))) with [WORKSPACE; USER; DEFAULT].
  rewrite !getKeybindingsForCommand_loop_first. simpl.
  repeat case_decide; congruence.
Qed.

(** C5. [getKeybindingsForCommand] returns the bindings of the highest
    scope below [END] that holds a binding resolving, in the command
    registry, to the command asked for, and those only: nothing of a lower
    scope comes with them. When no scope holds such a binding, the result is
    empty. A binding is returned when it is stored in that scope and its
    command id resolves to a command of the id asked for. *)
Theorem getKeybindingsForCommand_highest_scope r commandId :
  (∀ scope : KeybindingScope,
     scope < END →
     boundIn r commandId scope ≠ [] →
     (∀ s : KeybindingScope, scope < s < END → boundIn r commandId s = []) →
     getKeybindingsForCommand r commandId = boundIn r commandId scope) ∧
  ((∀ scope : KeybindingScope, scope < END → boundIn r commandId scope = []) →
     getKeybindingsForCommand r commandId = []) ∧
  (∀ (scope : KeybindingScope) b,
     b ∈ boundIn r commandId scope ↔
     b ∈ keymaps_at r scope ∧
     ∃ c : Command,
       getCommand (commandRegistry r) (command b) = Some c ∧ Command_id c = commandId).
Proof.
  split; [|split].
  - intros scope Hs Hne Habove. rewrite getKeybindingsForCommand_cases.
    unfold END, WORKSPACE, USER, DEFAULT in *.
    assert (scope = 0 ∨ scope = 1 ∨ scope = 2) as [-> | [-> | ->]] by lia.
    + rewrite (Habove 2), (Habove 1) by lia. by rewrite !decide_True.
    + rewrite (Habove 2) by lia. rewrite decide_True by done. by rewrite decide_False.
    + by rewrite decide_False.
  - intros Hnone. rewrite getKeybindingsForCommand_cases.
    rewrite (Hnone WORKSPACE), (Hnone USER), (Hnone DEFAULT) by (unfold END, WORKSPACE, USER, DEFAULT; lia).
    by rewrite !decide_True.
  - intros scope b. unfold boundIn. rewrite list_elem_of_filter.
    rewrite <- bound_to_true. rewrite Is_true_true. tauto.
Qed.

End CommandLookup.

(** ** Keymaps *)

Section Keymaps.
Context `{Imports}.
Implicit Types (r : KeybindingRegistry) (b : Keybinding).

Lemma setKeymap_collect_all (keybindings : list Keybinding) :
  ∀ customBindings : list Keybinding,
    Forall parses keybindings →
    setKeymap_collect keybindings customBindings = Some (customBindings ++ keybindings).
Proof.
  induction keybindings as [|kb rest IH]; intros custom Hall; simpl.
  - by rewrite app_nil_r.
  - apply Forall_cons in Hall as [[kc Hkc] Hrest]. rewrite Hkc.
    rewrite IH by done. by rewrite <- app_assoc.
Qed.

Lemma setKeymap_collect_invalid (keybindings : list Keybinding) :
  ∀ customBindings : list Keybinding,
    Exists (λ b, ¬ parses b) keybindings →
    setKeymap_collect keybindings customBindings = None.
Proof.
  induction keybindings as [|kb rest IH]; intros custom Hex; simpl.
  - by apply Exists_nil in Hex.
  - destruct (KeyCode_parse (keybinding kb)) as [e|kc] eqn:Hkb; [done|].
    apply IH. apply Exists_cons in Hex as [Hbad|Hex]; [|done].
    destruct Hbad. by exists kc.
Qed.

Lemma setKeymap_elsewhere r (scope s : KeybindingScope)
    (keybindings : list Keybinding) :
  s ≠ scope → s < length (keymaps r) →
  keymaps_at (setKeymap r scope keybindings) s = keymaps_at r s.
Proof.
  intros Hne Hs. unfold setKeymap, resetKeybindingsForScope, keymaps_at.
  destruct (setKeymap_collect _ _); simpl; by apply array_assign_other.
Qed.

(** C2. At any scope and for any list of bindings: when the keybinding
    string of some binding of the list fails to parse, [setKeymap] leaves
    the scope empty, so that no binding of the list, valid or not, is
    installed; when every string parses, the scope holds the supplied list
    and nothing else afterwards. The other scopes keep their bindings. *)
Theorem setKeymap_all_or_nothing r (scope : KeybindingScope)
    (keybindings : list Keybinding) :
  (Exists (λ b, ¬ parses b) keybindings →
     keymaps_at (setKeymap r scope keybindings) scope = []) ∧
  (Forall parses keybindings →
     keymaps_at (setKeymap r scope keybindings) scope = keybindings) ∧
  (∀ s : KeybindingScope,
     s ≠ scope → s < length (keymaps r) →
     keymaps_at (setKeymap r scope keybindings) s = keymaps_at r s).
Proof.
  split; [|split].
  - intros Hex. unfold setKeymap. rewrite setKeymap_collect_invalid by done.
    apply array_assign_at.
  - intros Hall. unfold setKeymap. rewrite setKeymap_collect_all by done.
    apply array_assign_at.
  - intros s. apply setKeymap_elsewhere.
Qed.

(** The invariant of the registry: every scope below [END] has its list. *)
Lemma keymaps_wf_new (cr : CommandRegistry) (ctx : KeybindingContextRegistry) :
  keymaps_wf (new_KeybindingRegistry cr ctx).
Proof. unfold keymaps_wf, END. simpl. lia. Qed.

Lemma keymaps_wf_resetKeybindingsForScope r (scope : KeybindingScope) :
  keymaps_wf r → keymaps_wf (resetKeybindingsForScope r scope).
Proof.
  unfold keymaps_wf. simpl. intros Hwf.
  etrans; [exact Hwf|apply array_assign_length].
Qed.

Lemma keymaps_wf_setKeymap r (scope : KeybindingScope)
    (keybindings : list Keybinding) :
  keymaps_wf r → keymaps_wf (setKeymap r scope keybindings).
Proof.
  intros Hwf. unfold setKeymap. destruct (setKeymap_collect _ _).
  - unfold keymaps_wf in *. simpl. etrans; [exact Hwf|apply array_assign_length].
  - by apply keymaps_wf_resetKeybindingsForScope.
Qed.

Lemma keymaps_wf_resetKeybindings r :
  keymaps_wf r → keymaps_wf (resetKeybindings r).
Proof.
  unfold resetKeybindings, keymaps_wf. simpl. intros Hwf.
  repeat (etrans; [|apply array_assign_length]). exact Hwf.
Qed.

Lemma keymaps_wf_registerKeybinding r b :
  keymaps_wf r → keymaps_wf (registerKeybinding r b).
Proof.
  intros Hwf. unfold registerKeybinding.
  destruct (KeyCode_parse (keybinding b)); [done|].
  destruct (_ && _); [done|]. unfold keymaps_wf, pushed in *. simpl.
  by rewrite length_alter.
Qed.

End Keymaps.

(** ** Lookup by Key Code and the priority sort *)

Lemma sort_insert_behind {A} (compare : A → A → Z) (x : A) (l1 l2 : list A) :
  Forall (λ y, (0 < compare x y)%Z) l1 →
  (∀ y : A, head l2 = Some y → (compare x y ≤ 0)%Z) →
  sort_insert compare x (l1 ++ l2) = l1 ++ x :: l2.
Proof.
  intros Hl1 Hl2. induction Hl1 as [|y l1 Hy _ IH]; simpl.
  - destruct l2 as [|y l2]; [done|]. simpl.
    destruct (Z.ltb_spec 0 (compare x y)) as [Hlt|_]; [|done].
    specialize (Hl2 y eq_refl). lia.
  - destruct (Z.ltb_spec 0 (compare x y)) as [_|Hle]; [|lia]. by rewrite IH.
Qed.

Section KeyCodeLookup.
Context `{Imports}.
Implicit Types (r : KeybindingRegistry) (b : Keybinding) (keyCode : KeyCode).

Lemma hasContext_true r b :
  hasContext r b = true ↔
  ∃ c : string,
    context b = Some c ∧ c ≠ "" ∧ is_Some (getContext (contextRegistry r) c).
Proof.
  unfold hasContext, contextOf. rewrite bool_decide_eq_true.
  destruct (context b) as [c|].
  - case_decide as Hc.
    + split; [by intros []|]. intros (c' & [= <-] & Hne & _). done.
    + split; [by exists c|]. by intros (c' & [= <-] & _ & ?).
  - split; [by intros []|]. by intros (? & ? & _).
Qed.

Lemma compareByPriority_cases r (a b : Keybinding) :
  compareByPriority r a b =
  if hasContext r a then (if hasContext r b then 0%Z else (-1)%Z)
  else (if hasContext r b then 1%Z else 0%Z).
Proof.
  unfold compareByPriority, hasContext.
  by destruct (bool_decide (is_Some (contextOf r a))),
              (bool_decide (is_Some (contextOf r b))).
Qed.

(** The sort puts the bindings with a context first and keeps the stored
    order inside both groups. *)
Lemma sortKeybindingsByPriority_partition r (l : list Keybinding) :
  sortKeybindingsByPriority r l =
  filter (λ b, hasContext r b) l ++ filter (λ b, ¬ hasContext r b) l.
Proof.
  unfold sortKeybindingsByPriority.
  induction l as [|x l IH]; simpl; [done|]. rewrite IH.
  destruct (hasContext r x) eqn:Hx.
  - rewrite filter_cons_True by (by rewrite Hx).
    rewrite filter_cons_False by (rewrite Hx; by intros Hn; apply Hn).
    apply (sort_insert_behind _ x []); [done|].
    intros y _. rewrite compareByPriority_cases, Hx. by destruct (hasContext r y).
  - rewrite filter_cons_False by (rewrite Hx; by intros []).
    rewrite filter_cons_True by (rewrite Hx; by intros []).
    apply sort_insert_behind.
    + apply Forall_forall. intros y Hy. apply list_elem_of_filter in Hy as [Hy _].
      rewrite compareByPriority_cases, Hx. apply Is_true_true in Hy. by rewrite Hy.
    + intros y Hy. apply head_Some_elem_of in Hy.
      apply list_elem_of_filter in Hy as [Hy _].
      rewrite compareByPriority_cases, Hx.
      destruct (hasContext r y); [by destruct Hy|done].
Qed.

Lemma collectForKeyCode_scopes r keyCode :
  collectForKeyCode r keyCode =
  matchingIn r keyCode DEFAULT ++ matchingIn r keyCode USER ++
  matchingIn r keyCode WORKSPACE.
Proof.
  unfold collectForKeyCode, matchingIn.
  change (seq DEFAULT (END - DEFAULT)) with [DEFAULT; USER; WORKSPACE].
  simpl. rewrite !forEach_push_filter. simpl. by rewrite <- app_assoc.
Qed.

Lemma matchesKeyCode_true r keyCode (scope : KeybindingScope) b :
  matchesKeyCode r keyCode scope b = true ↔
  (∃ bindingKeyCode : KeyCode,
     KeyCode_parse (keybinding b) = inr bindingKeyCode ∧
     KeyCode_equals bindingKeyCode keyCode = true) ∧
  isKeybindingShadowed r scope b = false.
Proof.
  unfold matchesKeyCode. destruct (KeyCode_parse (keybinding b)) as [e|kc].
  - split; [done|]. by intros [(? & ? & _) _].
  - destruct (KeyCode_equals kc keyCode) eqn:Heq.
    + rewrite negb_true_iff. split; [eauto|by intros [_ ?]].
    + split; [done|]. intros [(kc' & [= <-] & Heq') _]. congruence.
Qed.

(** C3. For any Key Code, [getKeybindingsForKeyCode] returns the stored
    bindings of the scopes DEFAULT, USER, WORKSPACE, taken in that order and
    in stored order inside a scope, whose keybinding string parses to a Key
    Code equal to the one asked for and which are not shadowed; a binding
    whose string does not parse is left out and the scan goes on. In the
    result the bindings whose context id resolves in the context registry (a
    non-empty id for which [getContext] returns a value) come first, the
    others after them, and inside both groups the order of the scan is
    kept. *)
Theorem getKeybindingsForKeyCode_unshadowed_matches_by_priority r keyCode :
  let matching :=
    matchingIn r keyCode DEFAULT ++ matchingIn r keyCode USER ++
    matchingIn r keyCode WORKSPACE in
  getKeybindingsForKeyCode r keyCode =
    filter (λ b, hasContext r b) matching ++ filter (λ b, ¬ hasContext r b) matching ∧
  (∀ (scope : KeybindingScope) b,
     b ∈ matchingIn r keyCode scope ↔
     b ∈ keymaps_at r scope ∧
     (∃ bindingKeyCode : KeyCode,
        KeyCode_parse (keybinding b) = inr bindingKeyCode ∧
        KeyCode_equals bindingKeyCode keyCode = true) ∧
     isKeybindingShadowed r scope b = false) ∧
  (∀ b,
     hasContext r b = true ↔
     ∃ c : string,
       context b = Some c ∧ c ≠ "" ∧ is_Some (getContext (contextRegistry r) c)).
Proof.
  intros matching. split; [|split].
  - unfold getKeybindingsForKeyCode.
    by rewrite sortKeybindingsByPriority_partition, collectForKeyCode_scopes.
  - intros scope b. unfold matchingIn. rewrite list_elem_of_filter.
    rewrite Is_true_true, matchesKeyCode_true. tauto.
  - apply hasContext_true.
Qed.

End KeyCodeLookup.

(** ** Dispatch of a keyboard event *)

Section Dispatch.
Context `{Imports}.
Implicit Types (r : KeybindingRegistry) (b chosen : Keybinding).
Implicit Types (event : KeyboardEvent) (trace : list Effect).

Lemma contextCalls_app r (l1 l2 : list Keybinding) :
  contextCalls r (l1 ++ l2) = contextCalls r l1 ++ contextCalls r l2.
Proof. unfold contextCalls. apply bind_app. Qed.

Lemma contextCalls_one r b :
  contextCalls r [b] =
  match contextOf r b with
  | Some (IsContext c) => [IsEnabledCalled (id c) b]
  | _ => []
  end.
Proof. unfold contextCalls. simpl. by rewrite app_nil_r. Qed.

Lemma contextCalls_only_predicates r (l : list Keybinding) (e : Effect) :
  e ∈ contextCalls r l → ∃ c b, e = IsEnabledCalled c b.
Proof.
  unfold contextCalls. intros Hin. apply list_elem_of_bind in Hin as (b & Hb & _).
  destruct (contextOf r b) as [[c|name]|]; try by apply elem_of_nil in Hb.
  apply list_elem_of_singleton in Hb. eauto.
Qed.

Lemma contextCalls_no_handler r (l : list Keybinding) (h : CommandHandler) :
  Executed h ∉ contextCalls r l.
Proof.
  intros Hin. by apply contextCalls_only_predicates in Hin as (c & b & ?).
Qed.

(** The candidates that are not eligible are passed over; each costs the
    call of its context predicate and nothing else. *)
Lemma run_loop_skips r (skipped : list Keybinding) :
  ∀ (l : list Keybinding) event trace,
    Forall (λ b, eligible r b = Some false) skipped →
    run_loop r (skipped ++ l) event trace =
    run_loop r l event (trace ++ contextCalls r skipped).
Proof.
  induction skipped as [|b skipped IH]; intros l event trace Hskip.
  - simpl. by rewrite app_nil_r.
  - apply Forall_cons in Hskip as [Hb Hskip]. unfold eligible in Hb.
    change (contextCalls r (b :: skipped))
      with (contextCalls r ([b] ++ skipped)).
    rewrite contextCalls_app, contextCalls_one, app_assoc.
    change ((b :: skipped) ++ l) with (b :: (skipped ++ l)).
    cbn [run_loop].
    destruct (contextOf r b) as [[c|name]|]; [|done|done].
    injection Hb as Hb. rewrite Hb. by apply IH.
Qed.

(** The first eligible candidate ends the loop, whatever follows it. *)
Lemma run_loop_chosen r chosen (rest : list Keybinding) event trace :
  eligible r chosen = Some true →
  run_loop r (chosen :: rest) event trace =
  let examined := trace ++ contextCalls r [chosen] in
  if isPseudoCommand (command chosen) then mkRun event examined Normal
  else
    match getCommand (commandRegistry r) (command chosen) with
    | Some cmd =>
        mkRun (stopPropagation (preventDefault event))
          (examined ++
           match getActiveHandler (commandRegistry r) (Command_id cmd) with
           | Some commandHandler => [Executed commandHandler]
           | None => []
           end ++ [PreventDefaultCalled; StopPropagationCalled])
          Normal
    | None => mkRun event examined Normal
    end.
Proof.
  intros Hel. unfold eligible in Hel. cbn [run_loop]. cbv zeta.
  rewrite contextCalls_one.
  destruct (contextOf r chosen) as [[c|name]|]; [| done |].
  - injection Hel as Hel. rewrite Hel. destruct (isPseudoCommand _); [done|].
    destruct (getCommand _ _) as [cmd|]; [|done].
    destruct (getActiveHandler _ _); simpl; by rewrite <- ?app_assoc.
  - rewrite app_nil_r. destruct (isPseudoCommand _); [done|].
    destruct (getCommand _ _) as [cmd|]; [|done].
    destruct (getActiveHandler _ _); simpl; by rewrite <- ?app_assoc.
Qed.

(** A candidate whose context is an inherited member ends the loop by a
    throw. *)
Lemma run_loop_throws r b (rest : list Keybinding) event trace :
  eligible r b = None →
  run_loop r (b :: rest) event trace =
  mkRun event trace (Thrown isEnabled_not_a_function).
Proof.
  unfold eligible. cbn [run_loop].
  by destruct (contextOf r b) as [[c|name]|].
Qed.

Lemma run_at_first_eligible r event (skipped rest : list Keybinding) chosen :
  defaultPrevented event = false →
  getKeybindingsForKeyCode r (KeyCode_createKeyCode (keys event)) =
    skipped ++ chosen :: rest →
  Forall (λ b, eligible r b = Some false) skipped →
  eligible r chosen = Some true →
  run r event =
  run_loop r [chosen] event (contextCalls r skipped).
Proof.
  intros Hev Hbs Hskip Hel. unfold run. rewrite Hev, Hbs.
  rewrite run_loop_skips by done. simpl app.
  by rewrite !run_loop_chosen.
Qed.


(** Up to a first eligible candidate that is bound to the pseudo-command,
    the loop leaves the event alone and calls context predicates only. *)
Lemma run_loop_to_passthrough r chosen (rest : list Keybinding) event
    (skipped : list Keybinding) :
  eligible r chosen = Some true →
  command chosen = PASSTHROUGH_PSEUDO_COMMAND →
  Forall (λ b, eligible r b ≠ Some true) skipped →
  ∀ trace,
    ∃ examined : list Keybinding,
      examined `prefix_of` skipped ++ [chosen] ∧
      after (run_loop r (skipped ++ chosen :: rest) event trace) = event ∧
      effects (run_loop r (skipped ++ chosen :: rest) event trace) =
        trace ++ contextCalls r examined.
Proof.
  intros Hel Hcmd. induction 1 as [|b skipped Hb Hskip IH]; intros trace.
  - exists [chosen]. split; [done|]. simpl app.
    rewrite run_loop_chosen by done. simpl.
    unfold isPseudoCommand. by rewrite bool_decide_eq_true_2.
  - destruct (eligible r b) as [[|]|] eqn:Heb; [done| |].
    + change ((b :: skipped) ++ chosen :: rest)
        with ([b] ++ (skipped ++ chosen :: rest)).
      rewrite run_loop_skips by (by apply Forall_singleton).
      destruct (IH (trace ++ contextCalls r [b])) as (examined & Hpre & Ha & He).
      exists (b :: examined). split; [by apply prefix_cons|]. split; [done|].
      change (b :: examined) with ([b] ++ examined).
      by rewrite contextCalls_app, He, <- app_assoc.
    + exists []. split; [apply prefix_nil|].
      change ((b :: skipped) ++ chosen :: rest)
        with (b :: (skipped ++ chosen :: rest)).
      rewrite run_loop_throws by done. simpl. by rewrite app_nil_r.
Qed.

(** C7. When the first context-eligible candidate of an event is bound to
    the pseudo-command ["passthrough"], [run] hands the event back as it
    got it, its default not prevented and its propagation not stopped by
    the call, executes no handler, and examines no candidate behind that
    binding: the only calls it makes are context predicates of candidates up
    to that binding, in order, and when each candidate before it is in a
    context that is not enabled, these are all of them and [run] returns
    normally. *)
Theorem run_passthrough_leaves_event r event
    (skipped rest : list Keybinding) chosen :
  getKeybindingsForKeyCode r (KeyCode_createKeyCode (keys event)) =
    skipped ++ chosen :: rest →
  Forall (λ b, eligible r b ≠ Some true) skipped →
  eligible r chosen = Some true →
  command chosen = "passthrough" →
  after (run r event) = event ∧
  (∀ h : CommandHandler, Executed h ∉ effects (run r event)) ∧
  (PreventDefaultCalled ∉ effects (run r event)) ∧
  (StopPropagationCalled ∉ effects (run r event)) ∧
  (∃ examined : list Keybinding,
     examined `prefix_of` skipped ++ [chosen] ∧
     effects (run r event) = contextCalls r examined) ∧
  (defaultPrevented event = false →
   Forall (λ b, eligible r b = Some false) skipped →
   run r event = mkRun event (contextCalls r (skipped ++ [chosen])) Normal).
Proof.
  intros Hbs Hskip Hel Hcmd.
  assert (Hcalls : ∃ examined : list Keybinding,
            examined `prefix_of` skipped ++ [chosen] ∧
            after (run r event) = event ∧
            effects (run r event) = contextCalls r examined).
  { unfold run. destruct (defaultPrevented event) eqn:Hev.
    - exists []. split; [apply prefix_nil|]. by split.
    - rewrite Hbs.
      destruct (run_loop_to_passthrough r chosen rest event skipped Hel Hcmd Hskip [])
        as (examined & Hpre & Ha & He).
      exists examined. by repeat split. }
  destruct Hcalls as (examined & Hpre & Hafter & Heff).
  assert (Hno : ∀ e : Effect,
             (∀ c b, e ≠ IsEnabledCalled c b) → e ∉ effects (run r event)).
  { intros e He Hin. rewrite Heff in Hin.
    apply contextCalls_only_predicates in Hin as (c & b & ->). by apply (He c b). }
  split; [done|]. split; [intros h; by apply Hno|].
  split; [by apply Hno|]. split; [by apply Hno|].
  split; [by exists examined|].
  intros Hev Hfalse.
  rewrite (run_at_first_eligible r event skipped rest chosen) by done.
  rewrite run_loop_chosen by done. simpl.
  unfold isPseudoCommand. rewrite bool_decide_eq_true_2 by done.
  by rewrite contextCalls_app.
Qed.

End Dispatch.

(** ** Registration of default keybindings *)

Section Registration.
Context `{Imports}.
Implicit Types (r : KeybindingRegistry) (b binding : Keybinding).
Implicit Types (keyCode : KeyCode) (scope : KeybindingScope).

Lemma elem_of_getKeybindingsForKeyCode r keyCode b :
  b ∈ getKeybindingsForKeyCode r keyCode ↔
  ∃ scope, scope < END ∧ b ∈ matchingIn r keyCode scope.
Proof.
  unfold getKeybindingsForKeyCode.
  rewrite sortKeybindingsByPriority_partition, collectForKeyCode_scopes.
  rewrite elem_of_app, !list_elem_of_filter, !elem_of_app. split.
  - intros [[_ Hb]|[_ Hb]]; destruct Hb as [Hb|[Hb|Hb]];
      [exists DEFAULT|exists USER|exists WORKSPACE
      |exists DEFAULT|exists USER|exists WORKSPACE];
      (split; [unfold END, DEFAULT, USER, WORKSPACE; lia|done]).
  - intros (scope & Hs & Hb).
    assert (Hin : b ∈ matchingIn r keyCode DEFAULT ∨
                  b ∈ matchingIn r keyCode USER ∨ b ∈ matchingIn r keyCode WORKSPACE).
    { unfold END, DEFAULT, USER, WORKSPACE in *.
      assert (scope = 0 ∨ scope = 1 ∨ scope = 2) as [-> | [-> | ->]] by lia; auto. }
    destruct (hasContext r b) eqn:Hctx.
    + left. split; [by apply Is_true_true|done].
    + right. split; [|done]. intros Hn. apply Is_true_true in Hn. congruence.
Qed.

Lemma registerKeybinding_collision r binding keyCode :
  KeyCode_parse (keybinding binding) = inr keyCode →
  (∃ b, b ∈ getKeybindingsForKeyCode r keyCode ∧ context b = context binding) →
  registerKeybinding r binding = r.
Proof.
  intros Hp (b & Hb & Hctx). unfold registerKeybinding. rewrite Hp.
  assert (Hcol : b ∈ filter (λ b', context b' = context binding)
                   (getKeybindingsForKeyCode r keyCode))
    by (by apply list_elem_of_filter).
  destruct (getKeybindingsForKeyCode r keyCode) as [|x l];
    [by apply elem_of_nil in Hb|].
  destruct (filter _ (x :: l)); [by apply elem_of_nil in Hcol|done].
Qed.

Lemma registerKeybinding_accepted r binding keyCode :
  KeyCode_parse (keybinding binding) = inr keyCode →
  (∀ b, b ∈ getKeybindingsForKeyCode r keyCode → context b ≠ context binding) →
  registerKeybinding r binding = pushed r binding.
Proof.
  intros Hp Hfree. unfold registerKeybinding. rewrite Hp.
  destruct (filter (λ b', context b' = context binding)
              (getKeybindingsForKeyCode r keyCode)) as [|x l] eqn:Hf.
  - simpl. by rewrite andb_false_r.
  - assert (Hx : x ∈ filter (λ b', context b' = context binding)
                   (getKeybindingsForKeyCode r keyCode)) by (rewrite Hf; left).
    apply list_elem_of_filter in Hx as [Hctx Hx]. by destruct (Hfree x Hx).
Qed.

Lemma pushed_keymaps_at_DEFAULT r binding :
  keymaps_wf r →
  keymaps_at (pushed r binding) DEFAULT = keymaps_at r DEFAULT ++ [binding].
Proof.
  intros Hwf. unfold keymaps_at. simpl.
  rewrite list_lookup_total_alter_eq; [done|].
  unfold keymaps_wf, END, DEFAULT in *. lia.
Qed.

Lemma pushed_keymaps_at_above r binding scope :
  scope ≠ DEFAULT → keymaps_at (pushed r binding) scope = keymaps_at r scope.
Proof.
  intros Hs. unfold keymaps_at. simpl. by apply list_lookup_total_alter_ne.
Qed.

(** Shadowing looks at the scopes above the given one, never at DEFAULT. *)
Lemma pushed_isKeybindingShadowed r binding scope b :
  isKeybindingShadowed (pushed r binding) scope b = isKeybindingShadowed r scope b.
Proof.
  apply eq_true_iff_eq. rewrite !isKeybindingShadowed_true.
  split; intros (s & b' & Hs & Hb' & Hc); exists s, b';
    (split; [done|split; [|done]]).
  - rewrite pushed_keymaps_at_above in Hb'; [done|unfold DEFAULT; lia].
  - rewrite pushed_keymaps_at_above; [done|unfold DEFAULT; lia].
Qed.

Lemma pushed_matchesKeyCode r binding keyCode scope b :
  matchesKeyCode (pushed r binding) keyCode scope b = matchesKeyCode r keyCode scope b.
Proof. unfold matchesKeyCode. by rewrite pushed_isKeybindingShadowed. Qed.

Lemma pushed_matchingIn r binding keyCode scope b :
  keymaps_wf r →
  b ∈ matchingIn (pushed r binding) keyCode scope ↔
  b ∈ matchingIn r keyCode scope ∨
  (scope = DEFAULT ∧ b = binding ∧ matchesKeyCode r keyCode DEFAULT binding = true).
Proof.
  intros Hwf. unfold matchingIn. rewrite !list_elem_of_filter.
  rewrite pushed_matchesKeyCode.
  destruct (decide (scope = DEFAULT)) as [->|Hne].
  - rewrite pushed_keymaps_at_DEFAULT by done.
    rewrite elem_of_app, list_elem_of_singleton, Is_true_true. split.
    + intros [Hm [Hb | ->]]; [left|right]; done.
    + intros [[Hm Hb] | (_ & -> & Hm)]; (split; [done|]); [by left|by right].
  - rewrite pushed_keymaps_at_above by done. split; [by left|].
    intros [?|[? _]]; done.
Qed.

Lemma pushed_getKeybindingsForKeyCode r binding keyCode b :
  keymaps_wf r →
  b ∈ getKeybindingsForKeyCode (pushed r binding) keyCode ↔
  b ∈ getKeybindingsForKeyCode r keyCode ∨
  (b = binding ∧ matchesKeyCode r keyCode DEFAULT binding = true).
Proof.
  intros Hwf. rewrite !elem_of_getKeybindingsForKeyCode. split.
  - intros (scope & Hs & Hb). apply pushed_matchingIn in Hb as [Hb|(_ & Hb)];
      [left; eauto|by right|done].
  - intros [(scope & Hs & Hb) | [-> Hm]].
    + exists scope. split; [done|]. apply pushed_matchingIn; [done|by left].
    + exists DEFAULT. split; [unfold END, DEFAULT; lia|].
      apply pushed_matchingIn; [done|by right].
Qed.

(** C6, as the code has it. Let the keybinding string of a binding parse,
    in a registry whose constructor has run. If a binding that
    [getKeybindingsForKeyCode] returns for that Key Code has the same
    context field (the same string, or absent in both), [registerKeybinding]
    returns normally with the registry as it was, so that the earlier
    binding is still returned. Otherwise the new binding is appended to the
    DEFAULT scope and the other scopes stay as they were; afterwards
    [getKeybindingsForKeyCode] returns, for any Key Code, what it returned
    before, and the new binding with it exactly when the Key Code of the
    new binding equals the one asked for and the new binding is not
    shadowed by a higher scope. Two bindings of one keystroke and different
    contexts are thus both stored, and both returned unless shadowed. *)
Theorem registerKeybinding_rejects_same_context_else_appends
    r binding keyCode :
  keymaps_wf r →
  KeyCode_parse (keybinding binding) = inr keyCode →
  ((∃ b, b ∈ getKeybindingsForKeyCode r keyCode ∧ context b = context binding) →
     registerKeybinding r binding = r) ∧
  ((∀ b, b ∈ getKeybindingsForKeyCode r keyCode → context b ≠ context binding) →
     keymaps_at (registerKeybinding r binding) DEFAULT =
       keymaps_at r DEFAULT ++ [binding] ∧
     (∀ scope, scope ≠ DEFAULT →
        keymaps_at (registerKeybinding r binding) scope = keymaps_at r scope) ∧
     (∀ (asked : KeyCode) b,
        b ∈ getKeybindingsForKeyCode (registerKeybinding r binding) asked ↔
        b ∈ getKeybindingsForKeyCode r asked ∨
        (b = binding ∧ KeyCode_equals keyCode asked = true ∧
         isKeybindingShadowed r DEFAULT binding = false))).
Proof.
  intros Hwf Hp. split.
  - by apply registerKeybinding_collision.
  - intros Hfree. rewrite (registerKeybinding_accepted r binding keyCode) by done.
    split; [by apply pushed_keymaps_at_DEFAULT|].
    split; [intros scope Hs; by apply pushed_keymaps_at_above|].
    intros asked b. rewrite pushed_getKeybindingsForKeyCode by done.
    rewrite matchesKeyCode_true. split.
    + intros [Hb|[-> [(kc & Hkc & Heq) Hsh]]]; [by left|right].
      rewrite Hp in Hkc. injection Hkc as <-. done.
    + intros [Hb|(-> & Heq & Hsh)]; [by left|right].
      split; [done|]. split; [by exists keyCode|done].
Qed.

(** C10. The collision check of [registerKeybinding] sees unshadowed
    bindings only: when every stored binding that has the keystroke and the
    context of the candidate is shadowed by a higher scope, the candidate is
    appended to the DEFAULT scope all the same. *)
Theorem registerKeybinding_blind_to_shadowed r binding keyCode :
  keymaps_wf r →
  KeyCode_parse (keybinding binding) = inr keyCode →
  (∀ scope b,
     scope < END →
     b ∈ keymaps_at r scope →
     (∃ bindingKeyCode : KeyCode,
        KeyCode_parse (keybinding b) = inr bindingKeyCode ∧
        KeyCode_equals bindingKeyCode keyCode = true) →
     context b = context binding →
     isKeybindingShadowed r scope b = true) →
  keymaps_at (registerKeybinding r binding) DEFAULT =
    keymaps_at r DEFAULT ++ [binding].
Proof.
  intros Hwf Hp Hshadowed.
  rewrite (registerKeybinding_accepted r binding keyCode); [|done|].
  - by apply pushed_keymaps_at_DEFAULT.
  - intros b Hb Hctx.
    apply elem_of_getKeybindingsForKeyCode in Hb as (scope & Hs & Hb).
    unfold matchingIn in Hb. apply list_elem_of_filter in Hb as [Hm Hb].
    apply Is_true_true, matchesKeyCode_true in Hm as [Hkc Hsh].
    rewrite (Hshadowed scope b) in Hsh; done.
Qed.

End Registration.

(** ** The Key Code grammar: serialization and parsing *)

Module KeysFacts.
Import Keys.

Lemma split_plus_nonempty (s : string) : split_plus s ≠ [].
Proof.
  destruct s as [|c s]; simpl; [done|].
  case_decide; [done|]. by destruct (split_plus s).
Qed.

Lemma split_plus_plain (s : string) :
  occurs "+" s = false → split_plus s = [s].
Proof.
  induction s as [|c s IH]; simpl; [done|]. intros Hocc.
  apply orb_false_iff in Hocc as [Hc Hs]. apply bool_decide_eq_false in Hc.
  rewrite decide_False by done. by rewrite IH.
Qed.

Lemma split_plus_part (t rest : string) :
  occurs "+" t = false →
  split_plus (t +:+ String "+" rest) = t :: split_plus rest.
Proof.
  induction t as [|c t IH]; simpl; intros Hocc.
  - done.
  - apply orb_false_iff in Hocc as [Hc Ht]. apply bool_decide_eq_false in Hc.
    rewrite decide_False by done. by rewrite IH.
Qed.

(** Splitting undoes joining when no part holds the separator. *)
Lemma split_plus_concat (parts : list string) :
  parts ≠ [] →
  Forall (λ t, occurs "+" t = false) parts →
  split_plus (String.concat "+" parts) = parts.
Proof.
  induction parts as [|t parts IH]; [done|]. intros _ Hall.
  apply Forall_cons in Hall as [Ht Hall].
  destruct parts as [|t' parts].
  - simpl. by apply split_plus_plain.
  - change (String.concat "+" (t :: t' :: parts))
      with (t +:+ String "+" (String.concat "+" (t' :: parts))).
    rewrite split_plus_part by done. by rewrite IH.
Qed.

Lemma lower_case_app (s t : string) :
  lower_case (s +:+ t) = lower_case s && lower_case t.
Proof.
  induction s as [|c s IH]; simpl; [done|]. rewrite IH. by rewrite andb_assoc.
Qed.

Lemma lower_case_concat (parts : list string) :
  Forall (λ t, lower_case t = true) parts →
  lower_case (String.concat "+" parts) = true.
Proof.
  induction 1 as [|t parts Ht Hall IH]; [done|].
  destruct parts as [|t' parts]; [done|].
  change (String.concat "+" (t :: t' :: parts))
    with (t +:+ String "+" (String.concat "+" (t' :: parts))).
  rewrite lower_case_app, Ht. simpl. exact IH.
Qed.

Section GrammarFacts.
Variable isOSX : bool.
Variable recognized : string → bool.

Lemma parse_part_sound (keystroke part : string) (p p' : Parsed) :
  parse_part isOSX recognized keystroke p part = inr p' →
  (p_meta p' = true → p_meta p = true ∨ isOSX = true) ∧
  (∀ k : string, p_key p' = Some k → p_key p = Some k ∨ recognized k = true).
Proof.
  unfold parse_part.
  repeat case_decide;
    destruct isOSX, (recognized part) eqn:Hrec, (p_key p) eqn:Hkey;
    intros [= <-]; simpl; (split; [tauto|]); intros k Hk;
    try (left; congruence); right; congruence.
Qed.

Lemma parse_parts_sound (keystroke : string) (parts : list string) :
  ∀ p p' : Parsed,
    parse_parts isOSX recognized keystroke p parts = inr p' →
    (p_meta p' = true → p_meta p = true ∨ isOSX = true) ∧
    (∀ k : string, p_key p' = Some k → p_key p = Some k ∨ recognized k = true).
Proof.
  induction parts as [|part parts IH]; intros p p'; simpl.
  - intros [= <-]. split; [tauto|]. intros k Hk. by left.
  - destruct (parse_part isOSX recognized keystroke p part) as [e|p1] eqn:Hpart;
      [done|].
    intros Hrest. destruct (IH _ _ Hrest) as [Hm Hk].
    destruct (parse_part_sound _ _ _ _ Hpart) as [Hm1 Hk1]. split.
    + intros Hmeta. destruct (Hm Hmeta) as [Hmeta1|?]; [by apply Hm1|by right].
    + intros k Hkey. destruct (Hk k Hkey) as [Hkey1|?]; [by apply Hk1|by right].
Qed.

(** What [parse] returns is a Key Code of the host. *)
Lemma parse_valid (keystroke : string) (kc : KeyCode) :
  parse isOSX recognized keystroke = inr kc → valid isOSX recognized kc.
Proof.
  unfold parse.
  destruct (parse_parts _ _ _ _ _) as [e|p] eqn:Hparts; [done|].
  destruct (p_key p) as [k|] eqn:Hkey; [|done]. intros [= <-].
  destruct (parse_parts_sound _ _ _ _ Hparts) as [Hm Hk]. split; simpl.
  - by destruct (Hk k Hkey).
  - intros Hmeta. by destruct (Hm Hmeta).
Qed.

Hypothesis table_ok : key_table_ok recognized.

Lemma parse_parts_app (keystroke : string) (l1 l2 : list string) :
  ∀ p : Parsed,
    parse_parts isOSX recognized keystroke p (l1 ++ l2) =
    match parse_parts isOSX recognized keystroke p l1 with
    | inr p' => parse_parts isOSX recognized keystroke p' l2
    | inl e => inl e
    end.
Proof.
  induction l1 as [|t l1 IH]; intros p; simpl; [done|].
  by destruct (parse_part isOSX recognized keystroke p t).
Qed.

Lemma parse_part_key (keystroke k : string) (p : Parsed) :
  recognized k = true → p_key p = None →
  parse_part isOSX recognized keystroke p k = inr (set_key k p).
Proof.
  intros Hk Hp. destruct (table_ok k Hk) as (_ & Hmod & _).
  unfold modifier_words in Hmod. rewrite !not_elem_of_cons in Hmod.
  destruct Hmod as (? & ? & ? & ? & ? & ? & ? & _).
  unfold parse_part. rewrite !decide_False by tauto. by rewrite Hk, Hp.
Qed.

Lemma toString_parts_plain (kc : KeyCode) :
  recognized (key kc) = true →
  Forall (λ t, occurs "+" t = false) (toString_parts kc).
Proof.
  intros Hk. destruct (table_ok _ Hk) as [Hplus _]. unfold toString_parts.
  destruct (ctrl kc), (meta kc), (shift kc), (alt kc);
    repeat (apply Forall_cons; split; [done|]); apply Forall_nil_2.
Qed.

Lemma toString_parts_lower_case (kc : KeyCode) :
  recognized (key kc) = true →
  Forall (λ t, lower_case t = true) (toString_parts kc).
Proof.
  intros Hk. destruct (table_ok _ Hk) as (_ & _ & Hlow). unfold toString_parts.
  destruct (ctrl kc), (meta kc), (shift kc), (alt kc);
    repeat (apply Forall_cons; split; [done|]); apply Forall_nil_2.
Qed.

Lemma toString_parts_nonempty (kc : KeyCode) : toString_parts kc ≠ [].
Proof.
  unfold toString_parts.
  by destruct (ctrl kc), (meta kc), (shift kc), (alt kc).
Qed.

Lemma parse_parts_toString_parts (keystroke : string) (kc : KeyCode) :
  valid isOSX recognized kc →
  parse_parts isOSX recognized keystroke
    (mkParsed None false false false false) (toString_parts kc) =
  inr (mkParsed (Some (key kc)) (ctrl kc) (shift kc) (alt kc) (meta kc)).
Proof.
  intros [Hk Hmeta]. unfold toString_parts.
  rewrite !app_assoc, parse_parts_app.
  assert (Hmods :
    parse_parts isOSX recognized keystroke (mkParsed None false false false false)
      ((((if ctrl kc then ["ctrl"] else []) ++ (if meta kc then ["meta"] else [])) ++
        (if shift kc then ["shift"] else [])) ++ (if alt kc then ["alt"] else [])) =
    inr (mkParsed None (ctrl kc) (shift kc) (alt kc) (meta kc))).
  { destruct (meta kc).
    - rewrite Hmeta by done.
      by destruct (ctrl kc), (shift kc), (alt kc).
    - by destruct (ctrl kc), (shift kc), (alt kc). }
  rewrite Hmods. simpl. by rewrite parse_part_key.
Qed.

Lemma createKeyCode_valid (ks : Keystroke) :
  recognized (first ks) = true →
  valid isOSX recognized (createKeyCode isOSX ks).
Proof.
  intros Hk. split; [done|]. simpl. by destruct isOSX.
Qed.

(** C8. On an Apple host and on any other, the string that [toString]
    writes for a valid Key Code parses, and to a Key Code that [equals]
    finds equal to the one written: the string is lowercase and is the
    ["+"]-joined list of the modifier words, in the order ctrl, meta, shift,
    alt, followed by the name of the key, which are the parts [parse] splits
    it into. *)
Theorem parse_toString_roundtrip (kc : KeyCode) :
  valid isOSX recognized kc →
  (∃ parsed : KeyCode,
     parse isOSX recognized (toString kc) = inr parsed ∧
     equals parsed kc = true) ∧
  split_plus (toString kc) =
    (if ctrl kc then ["ctrl"] else []) ++ (if meta kc then ["meta"] else []) ++
    (if shift kc then ["shift"] else []) ++ (if alt kc then ["alt"] else []) ++
    [key kc] ∧
  lower_case (toString kc) = true.
Proof.
  intros Hvalid.
  assert (Hsplit : split_plus (toString kc) = toString_parts kc).
  { apply split_plus_concat; [apply toString_parts_nonempty|].
    apply toString_parts_plain, Hvalid. }
  split; [|split; [done|]].
  - exists kc. split.
    + unfold parse. rewrite Hsplit, parse_parts_toString_parts by done.
      simpl. by destruct kc.
    + unfold equals. by apply bool_decide_eq_true.
  - apply lower_case_concat, toString_parts_lower_case, Hvalid.
Qed.

(** The valid Key Codes of a host are those its [parse] can return. *)
Lemma valid_iff_parsed (kc : KeyCode) :
  valid isOSX recognized kc ↔
  ∃ keystroke : string, parse isOSX recognized keystroke = inr kc.
Proof.
  split.
  - intros Hvalid. exists (toString kc).
    unfold parse. unfold toString at 2.
    rewrite split_plus_concat;
      [|apply toString_parts_nonempty|apply toString_parts_plain, Hvalid].
    rewrite parse_parts_toString_parts by done. simpl. by destruct kc.
  - intros [keystroke Hparse]. by apply parse_valid in Hparse.
Qed.

End GrammarFacts.

End KeysFacts.

(** ** The scenarios, run *)

Module ScenarioFacts.
Import Scenario.
#[local] Existing Instance imports.

Lemma commands_by_id : CommandRegistry_by_id commands.
Proof.
  intros i c. simpl. repeat case_decide; intros [= <-]; by subst.
Qed.

Lemma test_keys_ok : Keys.key_table_ok Keys.test_keys.
Proof.
  intros k Hk. unfold Keys.test_keys in Hk. apply bool_decide_eq_true in Hk.
  repeat (apply elem_of_cons in Hk as [->|Hk];
          [split; [reflexivity|];
           split; [apply (bool_decide_eq_false_1 _); vm_compute; reflexivity
                  |reflexivity]|]).
  by apply elem_of_nil in Hk.
Qed.

Lemma user_rebinds_command_shadows_ctrl_a :
  ∀ (scope : KeybindingScope) (b : Keybinding),
    scope < END →
    b ∈ keymaps_at user_rebinds_command scope →
    (∃ bindingKeyCode : KeyCode,
       KeyCode_parse (keybinding b) = inr bindingKeyCode ∧
       KeyCode_equals bindingKeyCode kc_ctrl_a = true) →
    context b = context twin_a →
    isKeybindingShadowed user_rebinds_command scope b = true.
Proof.
  intros scope b Hs Hb _ Hctx.
  destruct scope as [|[|[|scope]]]; [| | |unfold END in Hs; lia].
  - change (b ∈ [test_a]) in Hb. apply list_elem_of_singleton in Hb as ->.
    reflexivity.
  - change (b ∈ [user_c]) in Hb. apply list_elem_of_singleton in Hb as ->.
    discriminate Hctx.
  - change (b ∈ []) in Hb. by apply elem_of_nil in Hb.
Qed.

(** keybinding.spec.ts, "keys api": the serializations. *)
Example serialize_backquote_M1 :
  Keys.toString (Keys.createKeyCode true (Keys.mkKeystroke "`" [Keys.M1])) = "meta+`" ∧
  Keys.toString (Keys.createKeyCode false (Keys.mkKeystroke "`" [Keys.M1])) = "ctrl+`".
Proof. split; reflexivity. Qed.

Example serialize_a_M2_M3 :
  Keys.toString (Keys.createKeyCode false (Keys.mkKeystroke "a" [Keys.M2; Keys.M3]))
  = "shift+alt+a".
Proof. reflexivity. Qed.

Example serialize_a_M4 :
  Keys.toString (Keys.createKeyCode true (Keys.mkKeystroke "a" [Keys.M4])) = "ctrl+a".
Proof. reflexivity. Qed.

Example parse_ctl_b :
  Keys.parse false Keys.test_keys "ctl+b" = inl (mkError "Unrecognized key in ctl+b").
Proof. reflexivity. Qed.

Example parse_cmd_b :
  Keys.parse false Keys.test_keys "cmd+b"
  = inl (mkError "Can't parse keybinding cmd+b meta is for OSX only") ∧
  Keys.parse true Keys.test_keys "cmd+b"
  = inr (Keys.mkKeyCode "b" false false false true).
Proof. split; reflexivity. Qed.

Example parse_ctrlcmd_b :
  Keys.parse false Keys.test_keys "ctrlcmd+b"
  = inr (Keys.mkKeyCode "b" true false false false) ∧
  Keys.parse true Keys.test_keys "ctrlcmd+b"
  = inr (Keys.mkKeyCode "b" false false false true).
Proof. split; reflexivity. Qed.

(** keybinding.spec.ts, "should only return the more specific keybindings
    when a keystroke is entered". *)
Example more_specific_only :
  let r := setKeymap
             (setKeymap (registerKeybinding fresh test_a) USER
                [mkKeybinding "test.command" "ctrl+b" None])
             WORKSPACE [user_c] in
  getKeybindingsForKeyCode r (Keys.mkKeyCode "a" true false false false) = [] ∧
  getKeybindingsForKeyCode r (Keys.mkKeyCode "b" true false false false) = [] ∧
  getKeybindingsForKeyCode r (Keys.mkKeyCode "c" true false false false) = [user_c] ∧
  getKeybindingsForCommand r "test.command" = [user_c].
Proof. vm_compute. repeat split. Qed.

(** An invalid entry empties the scope, valid entries included. *)
Example keymap_with_invalid_entry :
  keymaps_at (setKeymap user_rebinds_command USER
                [user_b; mkKeybinding "test.command" "ctrl+invalid" None]) USER = [].
Proof. reflexivity. Qed.

(** The duplicate registration of [TestContribution.registerContexts]. *)
Example testContext_twice :
  (registerContext new_KeybindingContextRegistry [testContext; testContext]).2
  = Thrown (mkError "A keybinding context with ID testContext is already registered.").
Proof. reflexivity. Qed.

(** The save scenario of the specification, with the test command. *)
Example dispatch_ctrl_a :
  run three_on_ctrl_a (keydown ctrl_a) =
  mkRun
    {| keys := ctrl_a; cancelable := true;
       defaultPrevented := true; propagationStopped := true |}
    [IsEnabledCalled "default.keybinding.context" disabled_a;
     IsEnabledCalled "testContext" test_a;
     Executed "test.command.handler";
     PreventDefaultCalled; StopPropagationCalled]
    Normal.
Proof. reflexivity. Qed.

Example dispatch_already_prevented :
  let event :=
    {| keys := ctrl_a; cancelable := true;
       defaultPrevented := true; propagationStopped := false |} in
  run three_on_ctrl_a event = mkRun event [] Normal.
Proof. reflexivity. Qed.

(** A binding whose context id is the name of an inherited property: the
    lookup puts it with the contextual bindings, ahead of the global one, and
    dispatching its key throws, the event untouched. *)
Example dispatch_inherited_context :
  let r := registerKeybindings fresh [global_a; constructor_a] in
  getKeybindingsForKeyCode r kc_ctrl_a = [constructor_a; global_a] ∧
  run r (keydown ctrl_a) =
    mkRun (keydown ctrl_a) [] (Thrown isEnabled_not_a_function).
Proof. split; reflexivity. Qed.

(** No context of the id ["constructor"] is registered, and none can be. *)
Example register_constructor_context :
  contexts new_KeybindingContextRegistry !! "constructor" = None ∧
  registerContext new_KeybindingContextRegistry [constructorContext] =
    (new_KeybindingContextRegistry,
     Thrown (mkError "A keybinding context with ID constructor is already registered.")).
Proof. split; reflexivity. Qed.

End ScenarioFacts.

(** ** The statements at the scenarios *)

Module Witnesses.
Import Scenario ScenarioFacts.
#[local] Existing Instance imports.

(** C9 at a context of the id ["constructor"], on a fresh registry. *)
Lemma registerContext_constructor_refused :
  id constructorContext ∈ Object_prototype_names ∧
  contexts new_KeybindingContextRegistry !! id constructorContext = None ∧
  registerContext new_KeybindingContextRegistry [constructorContext] =
    (new_KeybindingContextRegistry,
     Thrown (already_registered (id constructorContext))).
Proof.
  assert (Hname : id constructorContext ∈ Object_prototype_names)
    by apply list_elem_of_here.
  assert (Hown : contexts new_KeybindingContextRegistry !! id constructorContext = None)
    by reflexivity.
  split; [exact Hname|]. split; [exact Hown|].
  exact (proj1 (registerContext_refuses_inherited_id
                  new_KeybindingContextRegistry constructorContext [] Hname Hown)).
Defined.

(** C4 at the binding of the DEFAULT scope that the user keymap rebinds. *)
Lemma isKeybindingShadowed_user_rebinds_command :
  CommandRegistry_by_id (commandRegistry user_rebinds_command) ∧
  DEFAULT < END ∧
  (isKeybindingShadowed user_rebinds_command DEFAULT test_a = true ↔
   ∃ (s : KeybindingScope) (b : Keybinding),
     DEFAULT < s < END ∧
     b ∈ keymaps_at user_rebinds_command s ∧
     command b = command test_a ∧
     is_Some (getCommand (commandRegistry user_rebinds_command) (command b))).
Proof.
  assert (Hid : CommandRegistry_by_id (commandRegistry user_rebinds_command))
    by exact commands_by_id.
  assert (Hs : DEFAULT < END) by (unfold DEFAULT, END; repeat constructor).
  split; [exact Hid|]. split; [exact Hs|].
  exact (isKeybindingShadowed_by_any_higher_scope
           user_rebinds_command DEFAULT test_a Hid Hs).
Defined.


(** C7 at tab, with a global binding of tab behind the pseudo-command. *)
Lemma run_tab_passthrough :
  after (run with_passthrough (keydown tab)) = keydown tab ∧
  (∀ h : CommandHandler, Executed h ∉ effects (run with_passthrough (keydown tab))).
Proof.
  assert (Hskip : Forall (λ b, eligible with_passthrough b ≠ Some true) [])
    by constructor.
  destruct (run_passthrough_leaves_event with_passthrough (keydown tab)
              [] [test_tab] passthrough_tab eq_refl Hskip eq_refl eq_refl)
    as (Hafter & Hnone & _).
  exact (conj Hafter Hnone).
Defined.

(** C6 at the registration of a global binding of ctrl+a next to the one
    of the test context, under a user keymap. *)
Lemma registerKeybinding_global_a :
  keymaps_wf user_rebinds_command2 ∧
  KeyCode_parse (keybinding global_a) = inr kc_ctrl_a ∧
  keymaps_at (registerKeybinding user_rebinds_command2 global_a) DEFAULT =
    keymaps_at user_rebinds_command2 DEFAULT ++ [global_a].
Proof.
  assert (Hwf : keymaps_wf user_rebinds_command2)
    by (unfold keymaps_wf, END; simpl; repeat constructor).
  assert (Hp : KeyCode_parse (keybinding global_a) = inr kc_ctrl_a) by reflexivity.
  split; [exact Hwf|]. split; [exact Hp|].
  apply (registerKeybinding_rejects_same_context_else_appends
           user_rebinds_command2 global_a kc_ctrl_a Hwf Hp).
  intros b Hb. change (b ∈ [test_a]) in Hb.
  apply list_elem_of_singleton in Hb. rewrite Hb. discriminate.
Defined.

(** C10 at the twin of a shadowed binding. *)
Lemma registerKeybinding_twin_of_shadowed :
  keymaps_wf user_rebinds_command ∧
  KeyCode_parse (keybinding twin_a) = inr kc_ctrl_a ∧
  keymaps_at (registerKeybinding user_rebinds_command twin_a) DEFAULT =
    keymaps_at user_rebinds_command DEFAULT ++ [twin_a].
Proof.
  assert (Hwf : keymaps_wf user_rebinds_command)
    by (unfold keymaps_wf, END; simpl; repeat constructor).
  assert (Hp : KeyCode_parse (keybinding twin_a) = inr kc_ctrl_a) by reflexivity.
  split; [exact Hwf|]. split; [exact Hp|].
  exact (registerKeybinding_blind_to_shadowed
           user_rebinds_command twin_a kc_ctrl_a Hwf Hp
           user_rebinds_command_shadows_ctrl_a).
Defined.

(** C8 at meta+` on an Apple host. *)
Lemma parse_toString_meta_backquote :
  Keys.valid true Keys.test_keys meta_backquote ∧
  (∃ parsed : Keys.KeyCode,
     Keys.parse true Keys.test_keys (Keys.toString meta_backquote) = inr parsed ∧
     Keys.equals parsed meta_backquote = true).
Proof.
  assert (Hv : Keys.valid true Keys.test_keys meta_backquote)
    by (split; reflexivity).
  split; [exact Hv|].
  exact (proj1 (KeysFacts.parse_toString_roundtrip
                  true Keys.test_keys test_keys_ok meta_backquote Hv)).
Defined.

End Witnesses.

(** ** Where two statements of the specification stop short *)

Module Counterexamples.
Import Scenario ScenarioFacts.
#[local] Existing Instance imports.


(** C6 as stated: two bindings of one keystroke and different contexts
    would both be registered and both be returned by
    [getKeybindingsForKeyCode]. Under a user keymap that rebinds its
    command, the global binding of ctrl+a is registered next to the one of
    the test context, and is not returned. *)
Lemma registerKeybinding_other_context_not_returned :
  let r := user_rebinds_command2 in
  let r' := registerKeybinding r global_a in
  KeyCode_parse (keybinding test_a) = inr kc_ctrl_a ∧
  KeyCode_parse (keybinding global_a) = inr kc_ctrl_a ∧
  context test_a ≠ context global_a ∧
  test_a ∈ getKeybindingsForKeyCode r kc_ctrl_a ∧
  keymaps_at r' DEFAULT = [test_a; global_a] ∧
  ¬ (test_a ∈ getKeybindingsForKeyCode r' kc_ctrl_a ∧
     global_a ∈ getKeybindingsForKeyCode r' kc_ctrl_a).
Proof.
  intros r r'.
  split; [reflexivity|]. split; [reflexivity|]. split; [discriminate|].
  split; [change (test_a ∈ [test_a]); by apply list_elem_of_singleton|].
  split; [reflexivity|].
  intros [_ Hin]. change (global_a ∈ [test_a]) in Hin.
  apply list_elem_of_singleton in Hin. discriminate Hin.
Qed.

End Counterexamples.

(** * Further properties *)

(** ** The context registry over several calls *)

(** One call with the arguments of two equals the two calls in a row, the
    second left out when the first throws. *)
Lemma registerContext_app (l1 l2 : list KeybindingContext) :
  ∀ r : KeybindingContextRegistry,
    registerContext r (l1 ++ l2) =
    match (registerContext r l1).2 with
    | Normal => registerContext (registerContext r l1).1 l2
    | Thrown e => ((registerContext r l1).1, Thrown e)
    end.
Proof.
  induction l1 as [|c l1 IH]; intros r; simpl; [done|].
  destruct (contexts_get r (id c)); [done|]. apply IH.
Qed.

(** Every own property of the [contexts] object is a context stored under
    its id, and no id stored is the name of an inherited property. *)
Lemma registerContext_keyed (args : list KeybindingContext) :
  ∀ r : KeybindingContextRegistry,
    (∀ k c, contexts r !! k = Some c → id c = k ∧ k ∉ Object_prototype_names) →
    ∀ k c, contexts (registerContext r args).1 !! k = Some c →
           id c = k ∧ k ∉ Object_prototype_names.
Proof.
  induction args as [|a args IH]; intros r Hr; simpl; [done|].
  destruct (contexts_get r (id a)) eqn:Ha; [done|].
  apply IH. intros k c. simpl.
  destruct (decide (id a = k)) as [Heq|Hne].
  - rewrite Heq, lookup_insert_eq. intros [= <-]. split; [done|].
    unfold contexts_get in Ha. rewrite <- Heq.
    destruct (contexts r !! id a); [done|]. by case_decide.
  - rewrite lookup_insert_ne by done. apply Hr.
Qed.

(** X1. A context that is registered stays registered, under its id and
    unchanged, through any later call of [registerContext] and through
    [initialize], whether the call throws or not; more generally, whatever
    [getContext] returns for an id it returns ever after. *)
Theorem registered_context_is_permanent
    (r : KeybindingContextRegistry) (args : list KeybindingContext)
    (k : string) (m : Member) :
  getContext r k = Some m →
  getContext (registerContext r args).1 k = Some m ∧
  getContext (initialize r args).1 k = Some m.
Proof.
  intros Hk. split; [by apply registerContext_keeps|].
  revert r Hk. induction args as [|a args IH]; intros r Hk; [done|].
  cbn [initialize]. pose proof (registerContext_keeps [a] r k m Hk) as Hstep.
  destruct (registerContext r [a]) as [r' [|e]]; simpl in *; [by apply IH|done].
Qed.

(** X2. In every registry the constructor and [registerContext] can
    produce, what [getContext] returns for an id is either a registered
    context of that id, the id being no name of an inherited property, or,
    for such a name, the inherited member, which is no context: under the
    twelve names that a plain object inherits nothing is ever registered, and
    [getContext] answers there all the same. *)
Theorem reachable_contexts_keyed_by_id
    (r : KeybindingContextRegistry) (k : string) (m : Member) :
  ctx_reachable r →
  getContext r k = Some m →
  (∃ c : KeybindingContext,
     m = IsContext c ∧ id c = k ∧ k ∉ Object_prototype_names) ∨
  (m = Inherited k ∧ k ∈ Object_prototype_names).
Proof.
  intros Hr.
  assert (Hown : ∀ k c, contexts r !! k = Some c →
                   id c = k ∧ k ∉ Object_prototype_names).
  { induction Hr as [|r args _ IH].
    - unfold new_KeybindingContextRegistry.
      apply registerContext_keyed. apply registerContext_keyed.
      intros k' c'. simpl. by rewrite lookup_empty.
    - by apply registerContext_keyed. }
  unfold getContext, contexts_get.
  destruct (contexts r !! k) as [c|] eqn:Hk.
  - intros [= <-]. left. exists c. destruct (Hown k c Hk). by repeat split.
  - case_decide as Hname; [|done]. intros [= <-]. by right.
Qed.

(** X3. [initialize], which registers the contributed contexts one call at
    a time, ends in the registry and with the outcome of the single call
    [registerContext(...contributions)]. *)
Theorem initialize_as_one_call
    (contributions : list KeybindingContext) (r : KeybindingContextRegistry) :
  initialize r contributions = registerContext r contributions.
Proof.
  revert r. induction contributions as [|c rest IH]; intros r; [done|].
  simpl. destruct (contexts_get r (id c)); [done|]. apply IH.
Qed.

(** X4. A call of [registerContext] is not undone by its throw: when the
    arguments before some argument are all accepted and the [contexts] object
    has a value under that argument's id at its turn, the call throws for
    that argument and leaves the registry as the accepted arguments made it,
    each of them found under its id. *)
Theorem registerContext_throw_keeps_accepted
    (r : KeybindingContextRegistry) (accepted rest : list KeybindingContext)
    (c : KeybindingContext) :
  ¬ present_at_turn r accepted →
  is_Some (getContext (registerContext r accepted).1 (id c)) →
  registerContext r (accepted ++ c :: rest) =
    ((registerContext r accepted).1, Thrown (already_registered (id c))) ∧
  ∀ a : KeybindingContext,
    a ∈ accepted →
    getContext (registerContext r (accepted ++ c :: rest)).1 (id a)
      = Some (IsContext a).
Proof.
  intros Hacc [c' Hc].
  destruct (registerContext_inserts accepted r Hacc) as [Hnormal Hall].
  assert (Heq : registerContext r (accepted ++ c :: rest) =
                ((registerContext r accepted).1, Thrown (already_registered (id c)))).
  { rewrite registerContext_app, Hnormal. simpl.
    unfold getContext in Hc. by rewrite Hc. }
  split; [done|]. intros a Ha. rewrite Heq. by apply Hall.
Qed.

(** X21. What [registerContext] does, argument by argument: it throws the
    error of a duplicate when the [contexts] object has a value, own or
    inherited, under the id of some argument at that argument's turn, and
    otherwise returns normally with every argument found by [getContext]
    under its id. The built-in contexts are in every registry, so that their
    ids are always refused. *)
Theorem registerContext_throws_else_inserts
    (r : KeybindingContextRegistry) (args : list KeybindingContext) :
  ctx_reachable r →
  (is_Some (getContext r (id KeybindingContexts.NOOP_CONTEXT)) ∧
   is_Some (getContext r (id KeybindingContexts.DEFAULT_CONTEXT))) ∧
  (present_at_turn r args →
     ∃ c : KeybindingContext,
       c ∈ args ∧ (registerContext r args).2 = Thrown (already_registered (id c))) ∧
  (¬ present_at_turn r args →
     (registerContext r args).2 = Normal ∧
     ∀ c : KeybindingContext,
       c ∈ args → getContext (registerContext r args).1 (id c) = Some (IsContext c)).
Proof.
  intros Hr. split; [|split].
  - destruct (ctx_reachable_builtins r Hr) as [-> ->]. eauto.
  - apply registerContext_throws.
  - apply registerContext_inserts.
Qed.

(** ** Filters of filters *)

Lemma filter_filter_keeps {A} (P Q : A → Prop)
    `{∀ x, Decision (P x)} `{∀ x, Decision (Q x)} (l : list A) :
  (∀ x, P x → Q x) → filter Q (filter P l) = filter P l.
Proof.
  intros HPQ. induction l as [|x l IH]; [done|]. rewrite filter_cons.
  case_decide as Hx; [|done]. rewrite filter_cons_True by auto. by rewrite IH.
Qed.

Lemma filter_filter_drops {A} (P Q : A → Prop)
    `{∀ x, Decision (P x)} `{∀ x, Decision (Q x)} (l : list A) :
  (∀ x, P x → ¬ Q x) → filter Q (filter P l) = [].
Proof.
  intros HPQ. induction l as [|x l IH]; [done|]. rewrite filter_cons.
  case_decide as Hx; [|done]. rewrite filter_cons_False by auto. exact IH.
Qed.

(** ** Shadowing and the two lookups *)

Section FurtherLookups.
Context `{Imports}.
Implicit Types (r : KeybindingRegistry) (b binding : Keybinding).
Implicit Types (scope : KeybindingScope) (commandId : string).

Lemma isKeybindingShadowed_false r scope b :
  isKeybindingShadowed r scope b = false ↔
  ∀ (s : KeybindingScope) (b' : Keybinding),
    scope < s < END → b' ∈ keymaps_at r s → bound_to r (command b) b' = false.
Proof.
  split.
  - intros Hsh s b' Hs Hb'. destruct (bound_to r (command b) b') eqn:Hbound; [|done].
    assert (isKeybindingShadowed r scope b = true) as Hyes
      by (apply isKeybindingShadowed_true; eauto).
    congruence.
  - intros Hnone. destruct (isKeybindingShadowed r scope b) eqn:Hsh; [|done].
    apply isKeybindingShadowed_true in Hsh as (s & b' & Hs & Hb' & Hbound).
    rewrite (Hnone s b' Hs Hb') in Hbound. done.
Qed.

Lemma command_of_bound_to r commandId b :
  CommandRegistry_by_id (commandRegistry r) →
  bound_to r commandId b = true → command b = commandId.
Proof.
  intros Hid Hb. apply bound_to_true in Hb as (c & Hc & <-).
  symmetry. by apply Hid.
Qed.

Lemma elem_of_boundIn r commandId scope b :
  b ∈ boundIn r commandId scope ↔
  b ∈ keymaps_at r scope ∧ bound_to r commandId b = true.
Proof.
  unfold boundIn. rewrite list_elem_of_filter, Is_true_true. tauto.
Qed.

Lemma boundIn_nil r commandId scope :
  boundIn r commandId scope = [] ↔
  ∀ b, b ∈ keymaps_at r scope → bound_to r commandId b = false.
Proof.
  split.
  - intros Hnil b Hb. destruct (bound_to r commandId b) eqn:Hbound; [|done].
    assert (b ∈ boundIn r commandId scope) as Hin by (by apply elem_of_boundIn).
    rewrite Hnil in Hin. by apply elem_of_nil in Hin.
  - intros Hnone. destruct (boundIn r commandId scope) as [|b l] eqn:Hb; [done|].
    assert (b ∈ boundIn r commandId scope) as Hin by (rewrite Hb; left).
    apply elem_of_boundIn in Hin as [Hin Hbound].
    rewrite (Hnone b Hin) in Hbound. done.
Qed.

(** The result of [getKeybindingsForCommand] comes from the one scope below
    [END] above which no binding resolves to the command. *)
Lemma getKeybindingsForCommand_from r commandId scope :
  scope < END →
  (∀ s, scope < s < END → boundIn r commandId s = []) →
  boundIn r commandId scope ≠ [] →
  getKeybindingsForCommand r commandId = boundIn r commandId scope.
Proof.
  intros Hs Habove Hne. rewrite getKeybindingsForCommand_cases.
  unfold END, WORKSPACE, USER, DEFAULT in *.
  assert (scope = 0 ∨ scope = 1 ∨ scope = 2) as [-> | [-> | ->]] by lia.
  - rewrite (Habove 2), (Habove 1) by lia. by rewrite !decide_True.
  - rewrite (Habove 2) by lia. rewrite decide_True by done. by rewrite decide_False.
  - by rewrite decide_False.
Qed.

(** X5. Shadowing at the ends of the scope range: a binding of the
    WORKSPACE scope, or of any scope from there on, is never shadowed; and a
    binding shadowed as seen from a scope is shadowed as seen from every lower
    scope. *)
Theorem isKeybindingShadowed_top_and_downwards r b :
  (∀ scope, WORKSPACE ≤ scope → isKeybindingShadowed r scope b = false) ∧
  (∀ scope lower,
     lower ≤ scope →
     isKeybindingShadowed r scope b = true →
     isKeybindingShadowed r lower b = true).
Proof.
  split.
  - intros scope Hs. apply isKeybindingShadowed_false.
    intros s b' Hrange. unfold WORKSPACE, END in *. lia.
  - intros scope lower Hle Hsh.
    apply isKeybindingShadowed_true in Hsh as (s & b' & Hs & Hb').
    apply isKeybindingShadowed_true. exists s, b'. split; [lia|done].
Qed.

(** X6. The lookup by command and the shadowing test agree: with a command
    registry that hands out, for an id, the command of that id,
    [getKeybindingsForCommand] returns a binding exactly when it is stored in
    a scope below [END], resolves to the command asked for, and is not
    shadowed as seen from that scope. *)
Theorem getKeybindingsForCommand_iff_unshadowed r commandId b :
  CommandRegistry_by_id (commandRegistry r) →
  b ∈ getKeybindingsForCommand r commandId ↔
  ∃ scope,
    scope < END ∧ b ∈ keymaps_at r scope ∧
    bound_to r commandId b = true ∧ isKeybindingShadowed r scope b = false.
Proof.
  intros Hid. split.
  - intros Hb.
    assert (∃ scope, scope < END ∧
              (∀ s, scope < s < END → boundIn r commandId s = []) ∧
              b ∈ boundIn r commandId scope) as (scope & Hs & Habove & Hin).
    { rewrite getKeybindingsForCommand_cases in Hb.
      unfold END, WORKSPACE, USER, DEFAULT in *.
      destruct (decide (boundIn r commandId 2 = [])) as [H2|H2];
        [destruct (decide (boundIn r commandId 1 = [])) as [H1|H1]|].
      - exists 0. split; [lia|]. split; [|done]. intros s Hrange.
        assert (s = 1 ∨ s = 2) as [-> | ->] by lia; done.
      - exists 1. split; [lia|]. split; [|done]. intros s Hrange.
        by assert (s = 2) as -> by lia.
      - exists 2. split; [lia|]. split; [|done]. intros s Hrange. lia. }
    apply elem_of_boundIn in Hin as [Hstored Hbound].
    exists scope. repeat split; try done.
    apply isKeybindingShadowed_false. intros s b' Hrange Hb'.
    rewrite (command_of_bound_to r commandId b Hid Hbound).
    by apply (proj1 (boundIn_nil r commandId s) (Habove s Hrange)).
  - intros (scope & Hs & Hstored & Hbound & Hsh).
    rewrite (getKeybindingsForCommand_from r commandId scope Hs).
    + by apply elem_of_boundIn.
    + intros s Hrange. apply boundIn_nil. intros b' Hb'.
      rewrite <- (command_of_bound_to r commandId b Hid Hbound).
      by apply (proj1 (isKeybindingShadowed_false r scope b) Hsh s b').
    + intros Hnil. assert (b ∈ boundIn r commandId scope) as Hin
        by (by apply elem_of_boundIn).
      rewrite Hnil in Hin. by apply elem_of_nil in Hin.
Qed.

(** X7. The priority sort rearranges and nothing more: its result is a
    permutation of the bindings it was given, and sorting a sorted list
    changes nothing. *)
Theorem sortKeybindingsByPriority_permutes_once r (l : list Keybinding) :
  sortKeybindingsByPriority r l ≡ₚ l ∧
  sortKeybindingsByPriority r (sortKeybindingsByPriority r l) =
    sortKeybindingsByPriority r l.
Proof.
  split.
  - rewrite sortKeybindingsByPriority_partition. apply filter_app_complement.
  - rewrite !sortKeybindingsByPriority_partition, !filter_app.
    rewrite (filter_filter_keeps (λ b, hasContext r b) (λ b, hasContext r b)) by done.
    rewrite (filter_filter_drops (λ b, ¬ hasContext r b) (λ b, hasContext r b))
      by (intros x Hx; exact Hx).
    rewrite (filter_filter_drops (λ b, hasContext r b) (λ b, ¬ hasContext r b))
      by (intros x Hx Hn; exact (Hn Hx)).
    rewrite (filter_filter_keeps (λ b, ¬ hasContext r b) (λ b, ¬ hasContext r b))
      by done.
    by rewrite app_nil_r.
Qed.

End FurtherLookups.

(** ** Keymaps: loading, reloading, resetting *)

Lemma array_assign_twice {A} (hole v w : A) (i : nat) (a : list A) :
  array_assign hole i w (array_assign hole i v a) = array_assign hole i w a.
Proof.
  unfold array_assign at 2. case_decide as Hi.
  - unfold array_assign. rewrite length_insert.
    rewrite !decide_True by done. apply list_insert_insert_eq.
  - unfold array_assign.
    rewrite !length_app, length_replicate. simpl.
    rewrite decide_True by lia. rewrite decide_False by done.
    rewrite insert_app_r_alt by lia.
    rewrite insert_app_r_alt by (rewrite length_replicate; lia).
    rewrite length_replicate. by replace (i - length a - (i - length a)) with 0 by lia.
Qed.

Section FurtherKeymaps.
Context `{Imports}.
Implicit Types (r : KeybindingRegistry) (b binding : Keybinding).
Implicit Types (scope : KeybindingScope) (commandId : string).

Lemma setKeymap_at_valid r scope (keybindings : list Keybinding) :
  Forall parses keybindings →
  keymaps_at (setKeymap r scope keybindings) scope = keybindings.
Proof.
  intros Hall. unfold setKeymap. rewrite setKeymap_collect_all by done.
  apply array_assign_at.
Qed.

Lemma boundIn_same_elsewhere r r' commandId scope :
  commandRegistry r' = commandRegistry r →
  keymaps_at r' scope = keymaps_at r scope →
  boundIn r' commandId scope = boundIn r commandId scope.
Proof.
  intros Hcr Hkm. unfold boundIn, bound_to. by rewrite Hcr, Hkm.
Qed.

Lemma setKeymap_commandRegistry r scope (keybindings : list Keybinding) :
  commandRegistry (setKeymap r scope keybindings) = commandRegistry r.
Proof. unfold setKeymap. by destruct (setKeymap_collect _ _). Qed.

(** X8. A keymap with an entry that does not parse acts as the empty
    keymap: [setKeymap] leaves the registry as [setKeymap] with no binding at
    all, and as [resetKeybindingsForScope], would. *)
Theorem setKeymap_invalid_as_empty r scope (keybindings : list Keybinding) :
  Exists (λ b, ¬ parses b) keybindings →
  setKeymap r scope keybindings = setKeymap r scope [] ∧
  setKeymap r scope keybindings = resetKeybindingsForScope r scope.
Proof.
  intros Hex. unfold setKeymap. by rewrite setKeymap_collect_invalid.
Qed.

(** X9. The last keymap loaded at a scope is the one in force: loading a
    keymap over another at the same scope leaves the registry as loading the
    second alone, whether the lists parse or not. *)
Theorem setKeymap_last_wins r scope (first second : list Keybinding) :
  setKeymap (setKeymap r scope first) scope second = setKeymap r scope second.
Proof.
  unfold setKeymap, resetKeybindingsForScope, with_keymaps.
  destruct (setKeymap_collect first []), (setKeymap_collect second []);
    simpl; by rewrite array_assign_twice.
Qed.

(** X10. A loaded keymap overrides by command: after a keymap whose
    strings all parse is set at a scope below [END], every binding, at any
    lower scope and whatever its keystroke, whose command id an entry of the
    keymap resolves to is shadowed. *)
Theorem setKeymap_shadows_lower_scopes
    r scope (lower : KeybindingScope) (keybindings : list Keybinding)
    (entry b : Keybinding) :
  Forall parses keybindings →
  lower < scope < END →
  entry ∈ keybindings →
  bound_to r (command b) entry = true →
  isKeybindingShadowed (setKeymap r scope keybindings) lower b = true.
Proof.
  intros Hall Hrange Hentry Hbound.
  apply isKeybindingShadowed_true. exists scope, entry.
  split; [done|]. split; [by rewrite setKeymap_at_valid|].
  unfold bound_to. by rewrite setKeymap_commandRegistry.
Qed.

(** X11. After a keymap whose strings all parse is set at a scope below
    [END], in a registry whose constructor has run, the lookup by command
    returns the entries of the keymap that resolve to the command, in the
    order of the keymap, provided there is one and no higher scope holds a
    binding resolving to that command. *)
Theorem getKeybindingsForCommand_after_setKeymap
    r scope (keybindings : list Keybinding) commandId :
  keymaps_wf r →
  Forall parses keybindings →
  scope < END →
  (∃ entry, entry ∈ keybindings ∧ bound_to r commandId entry = true) →
  (∀ s, scope < s < END → boundIn r commandId s = []) →
  getKeybindingsForCommand (setKeymap r scope keybindings) commandId =
    filter (λ b, bound_to r commandId b) keybindings.
Proof.
  intros Hwf Hall Hs (entry & Hentry & Hbound) Habove.
  assert (Hhere : boundIn (setKeymap r scope keybindings) commandId scope =
                  filter (λ b, bound_to r commandId b) keybindings).
  { unfold boundIn, bound_to. rewrite setKeymap_commandRegistry.
    by rewrite setKeymap_at_valid. }
  rewrite (getKeybindingsForCommand_from _ commandId scope Hs); [done| |].
  - intros s Hrange. rewrite <- (Habove s Hrange).
    apply boundIn_same_elsewhere; [apply setKeymap_commandRegistry|].
    apply setKeymap_elsewhere; [lia|]. unfold keymaps_wf in Hwf. lia.
  - rewrite Hhere. intros Hnil.
    assert (entry ∈ filter (λ b, bound_to r commandId b) keybindings) as Hin
      by (apply list_elem_of_filter; split; [by apply Is_true_true|done]).
    rewrite Hnil in Hin. by apply elem_of_nil in Hin.
Qed.

(** X12. [resetKeybindings], in a registry whose constructor has run,
    empties the scopes USER and WORKSPACE and keeps the DEFAULT scope as it
    is; afterwards no binding is shadowed, and the lookup by command returns
    the bindings of the DEFAULT scope that resolve to the command. *)
Theorem resetKeybindings_leaves_defaults r :
  keymaps_wf r →
  keymaps_at (resetKeybindings r) DEFAULT = keymaps_at r DEFAULT ∧
  (∀ scope, DEFAULT < scope < END → keymaps_at (resetKeybindings r) scope = []) ∧
  (∀ scope b, isKeybindingShadowed (resetKeybindings r) scope b = false) ∧
  (∀ commandId,
     getKeybindingsForCommand (resetKeybindings r) commandId =
     boundIn r commandId DEFAULT).
Proof.
  intros Hwf. unfold keymaps_wf, END in Hwf.
  assert (H0 : keymaps_at (resetKeybindings r) DEFAULT = keymaps_at r DEFAULT).
  { unfold resetKeybindings, keymaps_at, DEFAULT, END. simpl.
    rewrite array_assign_other; [|lia|].
    - rewrite array_assign_other; [done|lia|lia].
    - pose proof (array_assign_length (@nil Keybinding) [] 1 (keymaps r)). lia. }
  assert (Habove : ∀ scope, DEFAULT < scope < END →
                     keymaps_at (resetKeybindings r) scope = []).
  { intros scope Hrange. unfold DEFAULT, END in Hrange.
    unfold resetKeybindings, keymaps_at, DEFAULT, END. simpl.
    assert (scope = 1 ∨ scope = 2) as [-> | ->] by lia.
    - rewrite array_assign_other; [apply array_assign_at|lia|].
      pose proof (array_assign_length (@nil Keybinding) [] 1 (keymaps r)). lia.
    - apply array_assign_at. }
  split; [done|]. split; [done|]. split.
  - intros scope b. apply isKeybindingShadowed_false. intros s b' Hrange Hb'.
    rewrite Habove in Hb' by (unfold DEFAULT; lia). by apply elem_of_nil in Hb'.
  - intros commandId. rewrite getKeybindingsForCommand_cases.
    assert (Hnil : ∀ scope, DEFAULT < scope < END →
                     boundIn (resetKeybindings r) commandId scope = []).
    { intros scope Hrange. unfold boundIn. by rewrite Habove. }
    rewrite (Hnil WORKSPACE), (Hnil USER) by (unfold DEFAULT, USER, WORKSPACE, END; lia).
    rewrite !decide_True by done. unfold boundIn. by rewrite H0.
Qed.

(** X13. A registry fresh from the constructor satisfies the invariant of
    the scopes and resolves nothing: both lookups are empty, and [run] hands
    any event back as it got it, without a single call to the outside. *)
Theorem new_KeybindingRegistry_resolves_nothing
    (cr : CommandRegistry) (ctx : KeybindingContextRegistry)
    (keyCode : KeyCode) commandId (event : KeyboardEvent) :
  keymaps_wf (new_KeybindingRegistry cr ctx) ∧
  getKeybindingsForKeyCode (new_KeybindingRegistry cr ctx) keyCode = [] ∧
  getKeybindingsForCommand (new_KeybindingRegistry cr ctx) commandId = [] ∧
  run (new_KeybindingRegistry cr ctx) event = mkRun event [] Normal.
Proof.
  split; [apply keymaps_wf_new|]. split; [done|]. split; [done|].
  unfold run. by destruct (defaultPrevented event).
Qed.

End FurtherKeymaps.

(** ** Registration, over and over *)

Section FurtherRegistration.
Context `{Imports}.
Implicit Types (r : KeybindingRegistry) (b binding : Keybinding).
Implicit Types (keyCode : KeyCode) (scope : KeybindingScope).

(** What a call of [registerKeybinding] can come to. *)
Lemma registerKeybinding_cases r binding :
  registerKeybinding r binding = r ∨
  ∃ keyCode,
    KeyCode_parse (keybinding binding) = inr keyCode ∧
    (∀ b, b ∈ getKeybindingsForKeyCode r keyCode → context b ≠ context binding) ∧
    registerKeybinding r binding = pushed r binding.
Proof.
  destruct (KeyCode_parse (keybinding binding)) as [e|keyCode] eqn:Hp.
  - left. unfold registerKeybinding. by rewrite Hp.
  - destruct (decide (Exists (λ b, context b = context binding)
                        (getKeybindingsForKeyCode r keyCode))) as [Hex|Hno].
    + left. apply (registerKeybinding_collision r binding keyCode Hp).
      apply Exists_exists in Hex as (b & Hb & Hctx). eauto.
    + right. exists keyCode. split; [done|].
      assert (Hfree : ∀ b, b ∈ getKeybindingsForKeyCode r keyCode →
                        context b ≠ context binding).
      { intros b Hb Hctx. apply Hno. apply Exists_exists. eauto. }
      split; [done|]. by apply registerKeybinding_accepted with keyCode.
Qed.

Lemma registerKeybinding_step r binding :
  ∃ added : list Keybinding,
    (added = [] ∨ (added = [binding] ∧ parses binding)) ∧
    keymaps_at (registerKeybinding r binding) DEFAULT =
      keymaps_at r DEFAULT ++ added ∧
    ∀ scope, scope ≠ DEFAULT →
      keymaps_at (registerKeybinding r binding) scope = keymaps_at r scope.
Proof.
  destruct (registerKeybinding_cases r binding) as [->|(keyCode & Hp & _ & ->)].
  - exists []. split; [by left|]. split; [by rewrite app_nil_r|done].
  - destruct (decide (DEFAULT < length (keymaps r))) as [Hlt|Hge].
    + exists [binding]. split; [right; split; [done|by exists keyCode]|].
      split; [|intros scope Hs; by apply pushed_keymaps_at_above].
      unfold keymaps_at, pushed. simpl. by rewrite list_lookup_total_alter_eq.
    + exists []. split; [by left|].
      split; [|intros scope Hs; by apply pushed_keymaps_at_above].
      unfold keymaps_at, pushed. simpl. rewrite app_nil_r.
      rewrite list_lookup_total_alter, decide_False; [done|]. tauto.
Qed.

(** X14. [registerKeybindings] only appends to the DEFAULT scope: the
    bindings that were there stay, in place; what is added behind them is a
    selection of the arguments, in the order they were given, each with a
    keybinding string that parses; and no other scope changes. *)
Theorem registerKeybindings_appends_to_DEFAULT (bindings : list Keybinding) r :
  ∃ added : list Keybinding,
    added `sublist_of` bindings ∧
    Forall parses added ∧
    keymaps_at (registerKeybindings r bindings) DEFAULT =
      keymaps_at r DEFAULT ++ added ∧
    ∀ scope, scope ≠ DEFAULT →
      keymaps_at (registerKeybindings r bindings) scope = keymaps_at r scope.
Proof.
  revert r. induction bindings as [|b bindings IH]; intros r.
  - exists []. split; [done|]. split; [done|]. split; [by rewrite app_nil_r|done].
  - destruct (registerKeybinding_step r b) as (added1 & Hadded1 & Hd1 & Ho1).
    destruct (IH (registerKeybinding r b)) as (added & Hsub & Hparse & Hd & Ho).
    exists (added1 ++ added). unfold registerKeybindings in *. simpl.
    split; [|split; [|split]].
    + destruct Hadded1 as [->|[-> _]]; simpl;
        [by apply sublist_cons|by apply sublist_skip].
    + destruct Hadded1 as [->|[-> Hb]]; simpl; [done|by apply Forall_cons].
    + by rewrite Hd, Hd1, <- app_assoc.
    + intros scope Hs. by rewrite Ho, Ho1.
Qed.

(** X15. Registering a binding a second time changes nothing: in a registry
    whose constructor has run, when the keybinding string parses to a Key
    Code that [equals] finds equal to itself and no higher scope shadows the
    binding, the second call of [registerKeybinding] is rejected. *)
Theorem registerKeybinding_twice r binding keyCode :
  keymaps_wf r →
  KeyCode_parse (keybinding binding) = inr keyCode →
  KeyCode_equals keyCode keyCode = true →
  isKeybindingShadowed r DEFAULT binding = false →
  registerKeybinding (registerKeybinding r binding) binding =
    registerKeybinding r binding.
Proof.
  intros Hwf Hp Hrefl Hsh.
  destruct (registerKeybinding_cases r binding) as [Hsame|(keyCode' & _ & _ & Hacc)].
  - rewrite Hsame. exact Hsame.
  - rewrite Hacc. apply (registerKeybinding_collision _ binding keyCode Hp).
    exists binding. split; [|done].
    apply pushed_getKeybindingsForKeyCode; [done|]. right. split; [done|].
    apply matchesKeyCode_true. split; [by exists keyCode|done].
Qed.

Lemma no_keymaps_unshadowed r scope b :
  no_keymaps r → isKeybindingShadowed r scope b = false.
Proof.
  intros Hno. destruct (isKeybindingShadowed r scope b) eqn:Hsh; [|done].
  apply isKeybindingShadowed_true in Hsh as (s & b' & Hs & Hb' & _).
  rewrite Hno in Hb' by (unfold DEFAULT; lia). by apply elem_of_nil in Hb'.
Qed.

Lemma no_keymaps_registerKeybinding r binding :
  no_keymaps r → no_keymaps (registerKeybinding r binding).
Proof.
  intros Hno scope Hrange.
  destruct (registerKeybinding_step r binding) as (_ & _ & _ & Hother).
  rewrite Hother by (unfold DEFAULT in *; lia). by apply Hno.
Qed.

Lemma collision_free_registerKeybinding r binding :
  (∀ k1 k2 : KeyCode, KeyCode_equals k1 k2 = true → KeyCode_equals k2 k1 = true) →
  keymaps_wf r → no_keymaps r → collision_free r →
  collision_free (registerKeybinding r binding).
Proof.
  intros Hsym Hwf Hno Hfree.
  destruct (registerKeybinding_cases r binding) as [->|(kc & Hp & Hacc & ->)]; [done|].
  assert (Hold : ∀ b' k', b' ∈ keymaps_at r DEFAULT →
                   KeyCode_parse (keybinding b') = inr k' →
                   KeyCode_equals k' kc = true → context b' ≠ context binding).
  { intros b' k' Hb' Hk' Heq. apply Hacc.
    apply elem_of_getKeybindingsForKeyCode. exists DEFAULT.
    split; [unfold DEFAULT, END; lia|].
    unfold matchingIn. apply list_elem_of_filter. split; [|done].
    apply Is_true_true, matchesKeyCode_true. split; [by exists k'|].
    by apply no_keymaps_unshadowed. }
  intros i j b1 b2 k1 k2 Hij. rewrite pushed_keymaps_at_DEFAULT by done.
  intros H1 H2 Hk1 Hk2 Heq.
  apply lookup_app_Some in H1 as [H1|[Hi H1]];
    apply lookup_app_Some in H2 as [H2|[Hj H2]].
  - by apply (Hfree i j b1 b2 k1 k2).
  - apply list_lookup_singleton_Some in H2 as [_ <-].
    rewrite Hp in Hk2. injection Hk2 as <-.
    apply (Hold b1 k1); [by apply list_elem_of_lookup_2 in H1|done|done].
  - apply list_lookup_singleton_Some in H1 as [_ <-].
    rewrite Hp in Hk1. injection Hk1 as <-.
    intros Hctx. apply (Hold b2 k2); [by apply list_elem_of_lookup_2 in H2|done| |done].
    by apply Hsym.
  - apply list_lookup_singleton_Some in H1 as [Hi0 _].
    apply list_lookup_singleton_Some in H2 as [Hj0 _]. lia.
Qed.

(** X16. Registration keeps the DEFAULT scope free of collisions: with an
    [equals] that is symmetric, in a registry whose constructor has run and
    that has no keymap loaded, if no two bindings stored at different places
    of the DEFAULT scope have equal Key Codes and the same context, then
    this is still so after [registerKeybindings], whatever is registered. *)
Theorem registerKeybindings_collision_free (bindings : list Keybinding) r :
  (∀ k1 k2 : KeyCode, KeyCode_equals k1 k2 = true → KeyCode_equals k2 k1 = true) →
  keymaps_wf r → no_keymaps r → collision_free r →
  collision_free (registerKeybindings r bindings).
Proof.
  intros Hsym. revert r.
  induction bindings as [|b bindings IH]; intros r Hwf Hno Hfree; [done|].
  unfold registerKeybindings in *. simpl. apply IH.
  - by apply keymaps_wf_registerKeybinding.
  - by apply no_keymaps_registerKeybinding.
  - by apply collision_free_registerKeybinding.
Qed.

(** X17. What is registered is found: after [registerKeybinding], in a
    registry whose constructor has run, for a binding whose string parses to
    a Key Code that [equals] finds equal to itself and that no higher scope
    shadows, the lookup by that Key Code returns a binding with the context
    field of the one registered: the binding itself when it was accepted, the
    one it collided with when it was rejected. *)
Theorem registerKeybinding_then_lookup r binding keyCode :
  keymaps_wf r →
  KeyCode_parse (keybinding binding) = inr keyCode →
  KeyCode_equals keyCode keyCode = true →
  isKeybindingShadowed r DEFAULT binding = false →
  ∃ b,
    b ∈ getKeybindingsForKeyCode (registerKeybinding r binding) keyCode ∧
    context b = context binding ∧
    (registerKeybinding r binding ≠ r → b = binding).
Proof.
  intros Hwf Hp Hrefl Hsh.
  destruct (decide (Exists (λ b, context b = context binding)
                      (getKeybindingsForKeyCode r keyCode))) as [Hex|Hno].
  - apply Exists_exists in Hex as (b & Hb & Hctx).
    rewrite (registerKeybinding_collision r binding keyCode Hp) by eauto.
    exists b. split; [done|]. split; [done|]. by intros [].
  - rewrite (registerKeybinding_accepted r binding keyCode Hp).
    + exists binding. split; [|done].
      apply pushed_getKeybindingsForKeyCode; [done|]. right. split; [done|].
      apply matchesKeyCode_true. split; [by exists keyCode|done].
    + intros b Hb Hctx. apply Hno. apply Exists_exists. eauto.
Qed.

End FurtherRegistration.

(** ** Dispatch, whatever the candidates *)

Section FurtherDispatch.
Context `{Imports}.
Implicit Types (r : KeybindingRegistry) (b chosen : Keybinding).
Implicit Types (event : KeyboardEvent) (trace : list Effect).



(** X19. When no candidate of an event is eligible, and so when there is no
    candidate at all, [run] leaves an event whose default is not prevented as
    it was, having called the context predicate of every candidate, in
    order, and nothing else. *)
Theorem run_without_eligible_candidate r event :
  defaultPrevented event = false →
  Forall (λ b, eligible r b = Some false)
    (getKeybindingsForKeyCode r (KeyCode_createKeyCode (keys event))) →
  run r event =
    mkRun event
      (contextCalls r (getKeybindingsForKeyCode r (KeyCode_createKeyCode (keys event))))
      Normal.
Proof.
  intros Hev Hnone. unfold run. rewrite Hev.
  rewrite <- (app_nil_r (getKeybindingsForKeyCode r _)) at 1.
  by rewrite run_loop_skips.
Qed.

(** X20. [run] and [isActive] agree: for an event whose default is not
    prevented, whose candidates before the first eligible one are in contexts
    that are not enabled, a handler is executed exactly when that first
    eligible candidate is active and is not bound to the pseudo-command. *)
Theorem run_executes_iff_isActive r event
    (skipped rest : list Keybinding) chosen :
  defaultPrevented event = false →
  getKeybindingsForKeyCode r (KeyCode_createKeyCode (keys event)) =
    skipped ++ chosen :: rest →
  Forall (λ b, eligible r b = Some false) skipped →
  eligible r chosen = Some true →
  (∃ h : CommandHandler, Executed h ∈ effects (run r event)) ↔
  isActive r chosen = true ∧ command chosen ≠ PASSTHROUGH_PSEUDO_COMMAND.
Proof.
  intros Hev Hbs Hskip Hel.
  rewrite (run_at_first_eligible r event skipped rest chosen) by done.
  rewrite run_loop_chosen by done. simpl.
  rewrite <- contextCalls_app. unfold isActive, isPseudoCommand.
  pose proof (contextCalls_no_handler r (skipped ++ [chosen])) as Hnone.
  destruct (decide (command chosen = PASSTHROUGH_PSEUDO_COMMAND)) as [Hp|Hp].
  - rewrite bool_decide_eq_true_2 by done. simpl. split.
    + intros [h Hh]. by destruct (Hnone h).
    + intros [_ Hne]. done.
  - rewrite bool_decide_eq_false_2 by done.
    destruct (getCommand (commandRegistry r) (command chosen)) as [cmd|]; simpl.
    + destruct (getActiveHandler (commandRegistry r) (Command_id cmd)) as [h|]; simpl.
      * split; [intros _; by split|].
        intros _. exists h. apply elem_of_app. right. left.
      * split; [|by intros [? _]]. intros [h Hh].
        apply elem_of_app in Hh as [Hh|Hh]; [by destruct (Hnone h)|].
        apply elem_of_cons in Hh as [Hh|Hh]; [done|].
        by apply list_elem_of_singleton in Hh.
    + split; [|by intros [? _]]. intros [h Hh]. by destruct (Hnone h).
Qed.

(** X22. A candidate whose context id is the name of an inherited
    property, once [run] reaches it, makes [run] throw a [TypeError]: the
    event is left as it was, no handler is executed, and the candidates behind
    it are not examined. *)
Theorem run_throws_at_inherited_context r event
    (skipped rest : list Keybinding) b :
  defaultPrevented event = false →
  getKeybindingsForKeyCode r (KeyCode_createKeyCode (keys event)) =
    skipped ++ b :: rest →
  Forall (λ b', eligible r b' = Some false) skipped →
  (∃ name : string,
     context b = Some name ∧ name ∈ Object_prototype_names ∧
     contexts (contextRegistry r) !! name = None) →
  run r event =
    mkRun event (contextCalls r skipped) (Thrown isEnabled_not_a_function).
Proof.
  intros Hev Hbs Hskip (name & Hctx & Hname & Hown).
  unfold run. rewrite Hev, Hbs. rewrite run_loop_skips by done. simpl app.
  apply run_loop_throws. unfold eligible, contextOf. rewrite Hctx.
  assert (name ≠ "") as Hne
    by (intros ->; revert Hname; apply (bool_decide_eq_false_1 _); reflexivity).
  rewrite decide_False by done. unfold getContext, contexts_get.
  rewrite Hown. by rewrite decide_True.
Qed.

End FurtherDispatch.

(** ** The further statements at the scenarios *)

Module MoreScenarioFacts.
Import Scenario.
#[local] Existing Instance imports.

Lemma testContext_is_new : ¬ present_at_turn new_KeybindingContextRegistry [testContext].
Proof.
  intros (i & c & Hi & Hc). destruct i as [|i]; [|by destruct i].
  injection Hi as <-. destruct Hc as [[c Hc]|(j & _ & Hj & _)]; [|lia].
  vm_compute in Hc. discriminate Hc.
Qed.

Lemma equals_symmetric :
  ∀ k1 k2 : KeyCode, KeyCode_equals k1 k2 = true → KeyCode_equals k2 k1 = true.
Proof.
  intros k1 k2 Heq. simpl in *. unfold Keys.equals in *.
  apply bool_decide_eq_true in Heq. by apply bool_decide_eq_true.
Qed.

Lemma fresh_no_keymaps : no_keymaps fresh.
Proof.
  intros scope Hrange. unfold DEFAULT, END in Hrange.
  assert (scope = 1 ∨ scope = 2) as [-> | ->] by lia; reflexivity.
Qed.

Lemma fresh_collision_free : collision_free fresh.
Proof. intros i j b1 b2 k1 k2 _ Hi. by destruct i. Qed.

Lemma invalid_binding_no_parse : ¬ parses invalid_binding.
Proof. intros [kc Hkc]. vm_compute in Hkc. discriminate Hkc. Qed.

Lemma nothing_above_USER :
  ∀ s : KeybindingScope,
    USER < s < END →
    boundIn (registerKeybinding fresh test_a) "test.command" s = [].
Proof.
  intros s Hrange. unfold USER, END in Hrange.
  by assert (s = 2) as -> by lia.
Qed.

End MoreScenarioFacts.

Module MoreWitnesses.
Import Scenario ScenarioFacts MoreScenarioFacts.
#[local] Existing Instance imports.

(** X1 at the test context, through a call that throws. *)
Lemma testContext_stays_registered :
  getContext testContexts "testContext" = Some (IsContext testContext) ∧
  getContext (registerContext testContexts [testContext; otherContext]).1 "testContext"
    = Some (IsContext testContext) ∧
  getContext (initialize testContexts [testContext; otherContext]).1 "testContext"
    = Some (IsContext testContext).
Proof.
  assert (Hk : getContext testContexts "testContext" = Some (IsContext testContext))
    by reflexivity.
  split; [exact Hk|].
  exact (registered_context_is_permanent
           testContexts [testContext; otherContext] "testContext"
           (IsContext testContext) Hk).
Defined.

(** X2 at the name ["toString"], on a fresh registry. *)
Lemma toString_is_inherited :
  (∃ c : KeybindingContext,
     Inherited "toString" = IsContext c ∧ id c = "toString" ∧
     "toString" ∉ Object_prototype_names) ∨
  (Inherited "toString" = Inherited "toString" ∧
   "toString" ∈ Object_prototype_names).
Proof.
  exact (reachable_contexts_keyed_by_id new_KeybindingContextRegistry
           "toString" (Inherited "toString") ctx_reach_new eq_refl).
Defined.

(** X21 at the duplicate registration of the test suite. *)
Lemma registerContext_testContext_twice :
  ctx_reachable new_KeybindingContextRegistry ∧
  ∃ c : KeybindingContext,
    c ∈ [testContext; testContext] ∧
    (registerContext new_KeybindingContextRegistry [testContext; testContext]).2
    = Thrown (already_registered (id c)).
Proof.
  split; [exact ctx_reach_new|].
  apply (registerContext_throws_else_inserts
           new_KeybindingContextRegistry [testContext; testContext] ctx_reach_new).
  exists 1, testContext. split; [reflexivity|]. right.
  exists 0, testContext. split; [repeat constructor|]. split; reflexivity.
Defined.

(** X22 at ctrl+a with a binding in the context ["constructor"]. *)
Lemma run_constructor_context_throws :
  run (registerKeybindings fresh [global_a; constructor_a]) (keydown ctrl_a) =
  mkRun (keydown ctrl_a)
    (contextCalls (registerKeybindings fresh [global_a; constructor_a]) [])
    (Thrown isEnabled_not_a_function).
Proof.
  assert (Hskip : Forall (λ b', eligible
            (registerKeybindings fresh [global_a; constructor_a]) b' = Some false) [])
    by constructor.
  assert (Hctx : ∃ name : string,
            context constructor_a = Some name ∧ name ∈ Object_prototype_names ∧
            contexts (contextRegistry
              (registerKeybindings fresh [global_a; constructor_a])) !! name = None).
  { exists "constructor". split; [reflexivity|].
    split; [apply list_elem_of_here|reflexivity]. }
  exact (run_throws_at_inherited_context
           (registerKeybindings fresh [global_a; constructor_a]) (keydown ctrl_a)
           [] [global_a] constructor_a eq_refl eq_refl Hskip Hctx).
Defined.

(** X4 at the duplicate registration of the test suite. *)
Lemma testContext_twice_keeps_first :
  registerContext new_KeybindingContextRegistry ([testContext] ++ testContext :: []) =
    ((registerContext new_KeybindingContextRegistry [testContext]).1,
     Thrown (already_registered (id testContext))) ∧
  ∀ a : KeybindingContext,
    a ∈ [testContext] →
    getContext
      (registerContext new_KeybindingContextRegistry
         ([testContext] ++ testContext :: [])).1 (id a) = Some (IsContext a).
Proof.
  assert (Hin : is_Some (getContext
                  (registerContext new_KeybindingContextRegistry [testContext]).1
                  (id testContext))) by (exists (IsContext testContext); reflexivity).
  exact (registerContext_throw_keeps_accepted new_KeybindingContextRegistry
           [testContext] [] testContext testContext_is_new Hin).
Defined.

(** X6 at the rebound test command. *)
Lemma lookup_of_rebound_command :
  user_c ∈ getKeybindingsForCommand user_rebinds_command "test.command" ↔
  ∃ scope : KeybindingScope,
    scope < END ∧ user_c ∈ keymaps_at user_rebinds_command scope ∧
    bound_to user_rebinds_command "test.command" user_c = true ∧
    isKeybindingShadowed user_rebinds_command scope user_c = false.
Proof.
  exact (getKeybindingsForCommand_iff_unshadowed user_rebinds_command
           "test.command" user_c commands_by_id).
Defined.

(** X8 at a keymap with one valid and one invalid entry. *)
Lemma keymap_with_invalid_entry_as_empty :
  setKeymap user_rebinds_command USER [user_b; invalid_binding] =
    setKeymap user_rebinds_command USER [] ∧
  setKeymap user_rebinds_command USER [user_b; invalid_binding] =
    resetKeybindingsForScope user_rebinds_command USER.
Proof.
  assert (Hex : Exists (λ b, ¬ parses b) [user_b; invalid_binding])
    by (apply Exists_cons_tl, Exists_cons_hd, invalid_binding_no_parse).
  exact (setKeymap_invalid_as_empty user_rebinds_command USER
           [user_b; invalid_binding] Hex).
Defined.

(** X10 at the user keymap of the test suite. *)
Lemma user_keymap_shadows_default :
  isKeybindingShadowed
    (setKeymap (registerKeybinding fresh test_a) USER [user_c]) DEFAULT test_a = true.
Proof.
  assert (Hall : Forall parses [user_c]).
  { apply Forall_singleton. exists (Keys.mkKeyCode "c" true false false false).
    reflexivity. }
  assert (Hrange : DEFAULT < USER < END)
    by (unfold DEFAULT, USER, END; split; repeat constructor).
  assert (Hentry : user_c ∈ [user_c]) by apply list_elem_of_here.
  exact (setKeymap_shadows_lower_scopes (registerKeybinding fresh test_a)
           USER DEFAULT [user_c] user_c test_a Hall Hrange Hentry eq_refl).
Defined.

(** X11 at the user keymap of the test suite. *)
Lemma lookup_after_user_keymap :
  getKeybindingsForCommand
    (setKeymap (registerKeybinding fresh test_a) USER [user_c]) "test.command" =
  filter (λ b, bound_to (registerKeybinding fresh test_a) "test.command" b) [user_c].
Proof.
  assert (Hwf : keymaps_wf (registerKeybinding fresh test_a))
    by (unfold keymaps_wf, END; simpl; repeat constructor).
  assert (Hall : Forall parses [user_c]).
  { apply Forall_singleton. exists (Keys.mkKeyCode "c" true false false false).
    reflexivity. }
  assert (Hs : USER < END) by (unfold USER, END; repeat constructor).
  assert (Hentry : ∃ entry, entry ∈ [user_c] ∧
            bound_to (registerKeybinding fresh test_a) "test.command" entry = true)
    by (exists user_c; split; [apply list_elem_of_here|reflexivity]).
  exact (getKeybindingsForCommand_after_setKeymap (registerKeybinding fresh test_a)
           USER [user_c] "test.command" Hwf Hall Hs Hentry nothing_above_USER).
Defined.

(** X12 at a registry with a user keymap. *)
Lemma reset_of_user_keymap :
  keymaps_at (resetKeybindings user_rebinds_command) DEFAULT =
    keymaps_at user_rebinds_command DEFAULT ∧
  (∀ scope : KeybindingScope,
     DEFAULT < scope < END → keymaps_at (resetKeybindings user_rebinds_command) scope = []) ∧
  (∀ (scope : KeybindingScope) (b : Keybinding),
     isKeybindingShadowed (resetKeybindings user_rebinds_command) scope b = false) ∧
  (∀ commandId : string,
     getKeybindingsForCommand (resetKeybindings user_rebinds_command) commandId =
     boundIn user_rebinds_command commandId DEFAULT).
Proof.
  assert (Hwf : keymaps_wf user_rebinds_command)
    by (unfold keymaps_wf, END; simpl; repeat constructor).
  exact (resetKeybindings_leaves_defaults user_rebinds_command Hwf).
Defined.

(** X15 at the first binding of the test contribution. *)
Lemma test_a_twice :
  registerKeybinding (registerKeybinding fresh test_a) test_a =
    registerKeybinding fresh test_a.
Proof.
  assert (Hwf : keymaps_wf fresh)
    by (unfold keymaps_wf, END; simpl; repeat constructor).
  exact (registerKeybinding_twice fresh test_a kc_ctrl_a Hwf eq_refl eq_refl eq_refl).
Defined.

(** X16 at the three bindings of ctrl+a and the twin of one of them. *)
Lemma test_bindings_collision_free :
  collision_free (registerKeybindings fresh [global_a; disabled_a; test_a; twin_a]).
Proof.
  assert (Hwf : keymaps_wf fresh)
    by (unfold keymaps_wf, END; simpl; repeat constructor).
  exact (registerKeybindings_collision_free [global_a; disabled_a; test_a; twin_a]
           fresh equals_symmetric Hwf fresh_no_keymaps fresh_collision_free).
Defined.

(** X17 at the first binding of the test contribution. *)
Lemma test_a_found_after_registration :
  ∃ b : Keybinding,
    b ∈ getKeybindingsForKeyCode (registerKeybinding fresh test_a) kc_ctrl_a ∧
    context b = context test_a ∧
    (registerKeybinding fresh test_a ≠ fresh → b = test_a).
Proof.
  assert (Hwf : keymaps_wf fresh)
    by (unfold keymaps_wf, END; simpl; repeat constructor).
  exact (registerKeybinding_then_lookup fresh test_a kc_ctrl_a Hwf
           eq_refl eq_refl eq_refl).
Defined.

(** X19 at ctrl+a with the always-disabled binding alone. *)
Lemma run_only_disabled :
  run only_disabled (keydown ctrl_a) =
  mkRun (keydown ctrl_a)
    (contextCalls only_disabled
       (getKeybindingsForKeyCode only_disabled
          (KeyCode_createKeyCode (keys (keydown ctrl_a)))))
    Normal.
Proof.
  assert (Hnone : Forall (λ b, eligible only_disabled b = Some false)
            (getKeybindingsForKeyCode only_disabled
               (KeyCode_createKeyCode (keys (keydown ctrl_a))))).
  { change (Forall (λ b, eligible only_disabled b = Some false) [disabled_a]).
    apply Forall_singleton. reflexivity. }
  exact (run_without_eligible_candidate only_disabled (keydown ctrl_a) eq_refl Hnone).
Defined.

(** X20 at ctrl+a with three candidates. *)
Lemma run_ctrl_a_executes_active :
  (∃ h : CommandHandler, Executed h ∈ effects (run three_on_ctrl_a (keydown ctrl_a))) ↔
  isActive three_on_ctrl_a test_a = true ∧
  command test_a ≠ PASSTHROUGH_PSEUDO_COMMAND.
Proof.
  assert (Hskip : Forall (λ b, eligible three_on_ctrl_a b = Some false) [disabled_a])
    by repeat constructor.
  exact (run_executes_iff_isActive three_on_ctrl_a (keydown ctrl_a)
           [disabled_a] [global_a] test_a eq_refl eq_refl Hskip eq_refl).
Defined.

End MoreWitnesses.
